(** * espeakup: the speech-command worker (synth.c) and the ALSA delivery
    callback (alsa.c)

    A shallow embedding of the queue-processing thread of espeakup and of
    the audio callback it shares the [stopped] flag with, followed by the
    properties of the command queue, the parameter store and the stop
    protocol.

    Conventions.
    - A C [int] is a [Z]; arithmetic on it goes through [Int.add],
      [Int.neg] and [Int.mul], which wrap at 32 bits.
    - The process state the code touches (the [synth_t] object, the queue,
      the global flags) is one record, [world], threaded through a state
      and error monad [M].
    - eSpeak and ALSA are external libraries.  Each is an oracle that
      answers a call from the history of the run; every call and every
      [free] is appended to [trace], oldest first.
    - The model is the sequential semantics of one thread.  Mutex and
      condition-variable operations are not state of the model; what other
      threads did shows in the [world] a function starts from. *)

From Stdlib Require Import ZArith List String Bool Lia.
Import ListNotations.
Local Open Scope Z_scope.

(** ** C [int] arithmetic *)

Module Int.

Definition modulus : Z := 4294967296.
Definition min_signed : Z := -2147483648.
Definition max_signed : Z := 2147483647.

(** The representative of [z] in the signed 32-bit range. *)
Definition wrap (z : Z) : Z := (z - min_signed) mod modulus + min_signed.

Definition in_range (z : Z) : Prop := min_signed <= z <= max_signed.

Definition neg (x : Z) : Z := wrap (- x).
Definition add (x y : Z) : Z := wrap (x + y).
Definition sub (x y : Z) : Z := wrap (x - y).
Definition mul (x y : Z) : Z := wrap (x * y).

End Int.

(** ** Types of the external libraries and of espeakup.h *)

(** [espeak_ERROR] of speak_lib.h. *)
Inductive espeak_ERROR : Type :=
| EE_OK
| EE_INTERNAL_ERROR
| EE_BUFFER_FULL
| EE_NOT_FOUND.

(** The members of [espeak_PARAMETER] that synth.c names. *)
Inductive espeak_PARAMETER : Type :=
| espeakRATE
| espeakVOLUME
| espeakPITCH
| espeakRANGE
| espeakPUNCTUATION
| espeakCAPITALS.

(** Modelled from the spec: [enum adjust_t] is declared in a header that is
    not under src/.  synth.c names [ADJ_DEC] and [ADJ_SET]; the third mode
    is the specification's Increment. *)
Inductive adjust_t : Type :=
| ADJ_DEC
| ADJ_SET
| ADJ_INC.

(** Modelled from the spec: [enum command_t] is declared in a header that
    is not under src/.  The first seven tags are the ones the switch of
    [queue_process_entry] names; [CMD_STOP] is the specification's Stop
    variant, a tag the switch has no case for. *)
Inductive command_t : Type :=
| CMD_SET_FREQUENCY
| CMD_SET_PITCH
| CMD_SET_PUNCTUATION
| CMD_SET_RATE
| CMD_SET_VOICE
| CMD_SET_VOLUME
| CMD_SPEAK_TEXT
| CMD_STOP.

(** An address; [char *buf] values are compared and freed, never read. *)
Definition ptr : Type := Z.

(** Modelled from the spec: [struct espeak_entry_t] is declared in a header
    that is not under src/.  The fields are the ones synth.c reads from
    [current]. *)
Record espeak_entry_t : Type := mk_entry {
  cmd : command_t;
  adjust : adjust_t;
  value : Z;
  buf : ptr;
  len : Z
}.

(** [struct synth_t], with the [punct] member that [set_punctuation] uses. *)
Record synth_t : Type := mk_synth {
  frequency : Z;
  pitch : Z;
  punct : Z;
  rate : Z;
  voice : string;
  volume : Z;
  s_buf : ptr;
  s_len : Z
}.

Definition with_frequency (v : Z) (s : synth_t) : synth_t :=
  mk_synth v (pitch s) (punct s) (rate s) (voice s) (volume s) (s_buf s) (s_len s).
Definition with_pitch (v : Z) (s : synth_t) : synth_t :=
  mk_synth (frequency s) v (punct s) (rate s) (voice s) (volume s) (s_buf s) (s_len s).
Definition with_punct (v : Z) (s : synth_t) : synth_t :=
  mk_synth (frequency s) (pitch s) v (rate s) (voice s) (volume s) (s_buf s) (s_len s).
Definition with_rate (v : Z) (s : synth_t) : synth_t :=
  mk_synth (frequency s) (pitch s) (punct s) v (voice s) (volume s) (s_buf s) (s_len s).
Definition with_voice (v : string) (s : synth_t) : synth_t :=
  mk_synth (frequency s) (pitch s) (punct s) (rate s) v (volume s) (s_buf s) (s_len s).
Definition with_volume (v : Z) (s : synth_t) : synth_t :=
  mk_synth (frequency s) (pitch s) (punct s) (rate s) (voice s) v (s_buf s) (s_len s).
Definition with_text (b : ptr) (l : Z) (s : synth_t) : synth_t :=
  mk_synth (frequency s) (pitch s) (punct s) (rate s) (voice s) (volume s) b l.

(** The five numeric parameters of the store, one per setter of synth.c. *)
Inductive field : Type :=
| Frequency
| Pitch
| Punctuation
| Rate
| Volume.

Definition stored (f : field) (s : synth_t) : Z :=
  match f with
  | Frequency => frequency s
  | Pitch => pitch s
  | Punctuation => punct s
  | Rate => rate s
  | Volume => volume s
  end.

Definition store (f : field) (v : Z) (s : synth_t) : synth_t :=
  match f with
  | Frequency => with_frequency v s
  | Pitch => with_pitch v s
  | Punctuation => with_punct v s
  | Rate => with_rate v s
  | Volume => with_volume v s
  end.

Definition command_of (f : field) : command_t :=
  match f with
  | Frequency => CMD_SET_FREQUENCY
  | Pitch => CMD_SET_PITCH
  | Punctuation => CMD_SET_PUNCTUATION
  | Rate => CMD_SET_RATE
  | Volume => CMD_SET_VOLUME
  end.

Definition parameter_of (f : field) : espeak_PARAMETER :=
  match f with
  | Frequency => espeakRANGE
  | Pitch => espeakPITCH
  | Punctuation => espeakPUNCTUATION
  | Rate => espeakRATE
  | Volume => espeakVOLUME
  end.

(** ** Calls into the libraries, and the trace *)

Inductive espeak_call : Type :=
| SetParameter (p : espeak_PARAMETER) (native : Z)
| SetVoiceByName (name : string)
| Synth (text : ptr) (size : Z)
| Cancel.

Inductive alsa_call : Type :=
| pcm_drop
| pcm_prepare
| pcm_status_get_state
| pcm_avail_update
| pcm_writei (audio : Z) (frames : Z).

Inductive block : Type :=
| TextBuffer (p : ptr)
| Entry (e : espeak_entry_t).

Inductive event : Type :=
| Espeak (c : espeak_call) (rc : espeak_ERROR)
| Alsa (c : alsa_call) (r : Z)
| Free (b : block).

(** ** The state of the process *)

Record world : Type := mk_world {
  synth : synth_t;                 (* the object [s] points to *)
  queue : list espeak_entry_t;     (* head first *)
  stopped : Z;                     (* shared with the audio callback *)
  runner_must_stop : Z;
  should_run : Z;
  trace : list event
}.

Definition set_synth (s : synth_t) (w : world) : world :=
  mk_world s (queue w) (stopped w) (runner_must_stop w) (should_run w) (trace w).
Definition set_queue (q : list espeak_entry_t) (w : world) : world :=
  mk_world (synth w) q (stopped w) (runner_must_stop w) (should_run w) (trace w).
Definition set_stopped (v : Z) (w : world) : world :=
  mk_world (synth w) (queue w) v (runner_must_stop w) (should_run w) (trace w).
Definition set_runner_must_stop (v : Z) (w : world) : world :=
  mk_world (synth w) (queue w) (stopped w) v (should_run w) (trace w).
Definition log (e : event) (w : world) : world :=
  mk_world (synth w) (queue w) (stopped w) (runner_must_stop w) (should_run w)
           (trace w ++ [e]).

(** ** The monad: state, and the two ways a run can fail to return *)

Inductive fault : Type :=
| UninitialisedRead     (* an automatic variable read before any store *)
| OutOfFuel.            (* a loop was cut off by the model *)

Inductive outcome (A : Type) : Type :=
| Done (a : A) (w : world)
| Fault (f : fault).
Arguments Done {A} a w.
Arguments Fault {A} f.

Definition M (A : Type) : Type := world -> outcome A.

Definition ret {A} (a : A) : M A := fun w => Done a w.
Definition bind {A B} (m : M A) (k : A -> M B) : M B :=
  fun w => match m w with
           | Done a w' => k a w'
           | Fault f => Fault f
           end.
Definition fail {A} (f : fault) : M A := fun _ => Fault f.
Definition gets {A} (proj : world -> A) : M A := fun w => Done (proj w) w.
Definition modify (f : world -> world) : M unit := fun w => Done tt (f w).

Declare Scope prog_scope.
Delimit Scope prog_scope with prog.
Notation "x <- m ;; k" := (bind m (fun x => k))
  (at level 61, m at next level, right associativity) : prog_scope.
Notation "m ;; k" := (bind m (fun _ => k))
  (at level 61, right associativity) : prog_scope.
Local Open Scope prog_scope.

Definition is_ok (rc : espeak_ERROR) : bool :=
  match rc with EE_OK => true | _ => false end.

Definition is_zero (v : Z) : bool := v =? 0.

Definition is_null {A} (p : option A) : bool :=
  match p with Some _ => false | None => true end.

(** ** Constants of synth.c *)

Definition defaultFrequency : Z := 5.
Definition defaultPitch : Z := 5.
Definition defaultRate : Z := 5.
Definition defaultVolume : Z := 5.

Definition frequencyMultiplier : Z := 11.
Definition pitchMultiplier : Z := 11.
Definition rateMultiplier : Z := 34.
Definition rateOffset : Z := 84.
Definition volumeMultiplier : Z := 22.

(** [SND_PCM_STATE_RUNNING] of asoundlib.h. *)
Definition SND_PCM_STATE_RUNNING : Z := 3.

(** The conversion of an [int] argument to a [size_t] parameter (64 bits). *)
Definition size_t_of (z : Z) : Z := z mod 18446744073709551616.

(** * The program *)

Section Program.

(** The libraries: the answer to a call, given the run so far. *)
Variable espeak_lib : list event -> espeak_call -> espeak_ERROR.
Variable alsa_lib : list event -> alsa_call -> Z.

Definition espeak (c : espeak_call) : M espeak_ERROR :=
  fun w => let rc := espeak_lib (trace w) c in Done rc (log (Espeak c rc) w).

Definition alsa (c : alsa_call) : M Z :=
  fun w => let r := alsa_lib (trace w) c in Done r (log (Alsa c r) w).

Definition free (b : block) : M unit := modify (log (Free b)).

Definition espeak_SetParameter (p : espeak_PARAMETER) (native : Z) : M espeak_ERROR :=
  espeak (SetParameter p native).
Definition espeak_SetVoiceByName (name : string) : M espeak_ERROR :=
  espeak (SetVoiceByName name).
Definition espeak_Synth (text : ptr) (size : Z) : M espeak_ERROR :=
  espeak (Synth text size).
Definition espeak_Cancel : M espeak_ERROR := espeak Cancel.

Definition snd_pcm_drop : M Z := alsa pcm_drop.
Definition snd_pcm_prepare : M Z := alsa pcm_prepare.
Definition snd_pcm_status_get_state : M Z := alsa pcm_status_get_state.
Definition snd_pcm_avail_update : M Z := alsa pcm_avail_update.
Definition snd_pcm_writei (audio frames : Z) : M Z := alsa (pcm_writei audio frames).

(** ** synth.c: the parameter store *)

Definition set_frequency (freq : Z) (adj : adjust_t) : M espeak_ERROR :=
  let freq := match adj with ADJ_DEC => Int.neg freq | _ => freq end in
  s <- gets synth ;;
  let freq := match adj with ADJ_SET => freq | _ => Int.add freq (frequency s) end in
  rc <- espeak_SetParameter espeakRANGE (Int.mul freq frequencyMultiplier) ;;
  (if is_ok rc then modify (set_synth (with_frequency freq s)) else ret tt) ;;
  ret rc.

Definition set_pitch (pitch' : Z) (adj : adjust_t) : M espeak_ERROR :=
  let pitch' := match adj with ADJ_DEC => Int.neg pitch' | _ => pitch' end in
  s <- gets synth ;;
  let pitch' := match adj with ADJ_SET => pitch' | _ => Int.add pitch' (pitch s) end in
  rc <- espeak_SetParameter espeakPITCH (Int.mul pitch' pitchMultiplier) ;;
  (if is_ok rc then modify (set_synth (with_pitch pitch' s)) else ret tt) ;;
  ret rc.

Definition set_punctuation (punct' : Z) (adj : adjust_t) : M espeak_ERROR :=
  let punct' := match adj with ADJ_DEC => Int.neg punct' | _ => punct' end in
  s <- gets synth ;;
  let punct' := match adj with ADJ_SET => punct' | _ => Int.add punct' (punct s) end in
  rc <- espeak_SetParameter espeakPUNCTUATION punct' ;;
  (if is_ok rc then modify (set_synth (with_punct punct' s)) else ret tt) ;;
  ret rc.

Definition set_rate (rate' : Z) (adj : adjust_t) : M espeak_ERROR :=
  let rate' := match adj with ADJ_DEC => Int.neg rate' | _ => rate' end in
  s <- gets synth ;;
  let rate' := match adj with ADJ_SET => rate' | _ => Int.add rate' (rate s) end in
  rc <- espeak_SetParameter espeakRATE
          (Int.add (Int.mul rate' rateMultiplier) rateOffset) ;;
  (if is_ok rc then modify (set_synth (with_rate rate' s)) else ret tt) ;;
  ret rc.

Definition set_voice (voice' : string) : M espeak_ERROR :=
  rc <- espeak_SetVoiceByName voice' ;;
  s <- gets synth ;;
  (if is_ok rc then modify (set_synth (with_voice voice' s)) else ret tt) ;;
  ret rc.

Definition set_volume (vol : Z) (adj : adjust_t) : M espeak_ERROR :=
  let vol := match adj with ADJ_DEC => Int.neg vol | _ => vol end in
  s <- gets synth ;;
  let vol := match adj with ADJ_SET => vol | _ => Int.add vol (volume s) end in
  rc <- espeak_SetParameter espeakVOLUME
          (Int.mul (Int.add vol 1) volumeMultiplier) ;;
  (if is_ok rc then modify (set_synth (with_volume vol s)) else ret tt) ;;
  ret rc.

(** The setter of a field: the dispatch that [queue_process_entry] makes
    on the five parameter commands. *)
Definition apply (f : field) : Z -> adjust_t -> M espeak_ERROR :=
  match f with
  | Frequency => set_frequency
  | Pitch => set_pitch
  | Punctuation => set_punctuation
  | Rate => set_rate
  | Volume => set_volume
  end.

(** ** synth.c: speech *)

Definition stop_speech : M espeak_ERROR :=
  modify (set_stopped 1) ;;
  espeak_Cancel.

Definition speak_text : M espeak_ERROR :=
  modify (set_stopped 0) ;;
  s <- gets synth ;;
  rc <- espeak_Synth (s_buf s) (size_t_of (Int.add (s_len s) 1)) ;;
  ret rc.

(** ** The queue *)

(** Modelled from the spec: [queue_peek] is defined in queue.c, which is
    not under src/.  It returns the head without removing it, or NULL
    when the queue is empty. *)
Definition queue_peek : M (option espeak_entry_t) :=
  gets (fun w => hd_error (queue w)).

(** Modelled from the spec: [queue_remove] is defined in queue.c, which is
    not under src/.  It removes exactly the current head. *)
Definition queue_remove : M unit :=
  modify (fun w => set_queue (tl (queue w)) w).

(** The [switch] of [queue_process_entry].  The result is the local
    [error]: [None] while no case has stored into it. *)
Definition queue_process_switch (current : espeak_entry_t) : M (option espeak_ERROR) :=
  match cmd current with
  | CMD_SET_FREQUENCY =>
      error <- set_frequency (value current) (adjust current) ;; ret (Some error)
  | CMD_SET_PITCH =>
      error <- set_pitch (value current) (adjust current) ;; ret (Some error)
  | CMD_SET_PUNCTUATION =>
      error <- set_punctuation (value current) (adjust current) ;; ret (Some error)
  | CMD_SET_RATE =>
      error <- set_rate (value current) (adjust current) ;; ret (Some error)
  | CMD_SET_VOICE =>
      ret (Some EE_OK)
  | CMD_SET_VOLUME =>
      error <- set_volume (value current) (adjust current) ;; ret (Some error)
  | CMD_SPEAK_TEXT =>
      s <- gets synth ;;
      modify (set_synth (with_text (buf current) (len current) s)) ;;
      error <- speak_text ;; ret (Some error)
  | CMD_STOP =>                 (* default: break; *)
      ret None
  end.

Definition queue_process_entry : M unit :=
  current <- queue_peek ;;
  match current with
  | Some current =>
      error <- queue_process_switch current ;;
      match error with
      | Some error => if is_ok error then queue_remove else ret tt
      | None => fail UninitialisedRead
      end
  | None => ret tt
  end.

Definition free_entry (entry : espeak_entry_t) : M unit :=
  (match cmd entry with
   | CMD_SPEAK_TEXT => free (TextBuffer (buf entry))
   | _ => ret tt
   end) ;;
  free (Entry entry).

(** The loop of [queue_clear]; [fuel] bounds the number of passes. *)
Fixpoint queue_clear_loop (fuel : nat) : M unit :=
  current <- queue_peek ;;
  match current with
  | Some current =>
      match fuel with
      | O => fail OutOfFuel
      | S fuel' => free_entry current ;; queue_remove ;; queue_clear_loop fuel'
      end
  | None => ret tt
  end.

(** Each pass removes one entry, so one pass per queued entry is all the
    loop can make ([queue_clear_loop_enough] below). *)
Definition queue_clear : M unit :=
  q <- gets queue ;; queue_clear_loop (List.length q).

(** ** synth.c: the worker thread *)

(** "Setup initial voice parameters" in [espeak_thread]; [defaultVoice] is
    the global of that name, [None] when it is NULL. *)
Definition espeak_thread_setup (defaultVoice : option string) : M unit :=
  (match defaultVoice with
   | Some v => set_voice v ;; ret tt
   | None => ret tt
   end) ;;
  set_frequency defaultFrequency ADJ_SET ;;
  set_pitch defaultPitch ADJ_SET ;;
  set_rate defaultRate ADJ_SET ;;
  set_volume defaultVolume ADJ_SET ;;
  espeak_SetParameter espeakCAPITALS 0 ;;
  ret tt.

(** The inner [while (should_run && queue_peek() && !runner_must_stop)]. *)
Fixpoint espeak_thread_process (fuel : nat) : M unit :=
  run <- gets should_run ;;
  head <- queue_peek ;;
  must_stop <- gets runner_must_stop ;;
  if negb (is_zero run) && negb (is_null head) && is_zero must_stop then
    match fuel with
    | O => fail OutOfFuel
    | S fuel' => queue_process_entry ;; espeak_thread_process fuel'
    end
  else ret tt.

(** [if (runner_must_stop) { ... }], up to the signal on
    [stop_acknowledged]. *)
Definition espeak_thread_stop : M unit :=
  must_stop <- gets runner_must_stop ;;
  if is_zero must_stop then ret tt
  else
    queue_clear ;;
    stop_speech ;;
    modify (set_runner_must_stop 0).

(** One pass of the outer loop, from the return of [pthread_cond_wait]. *)
Definition espeak_thread_wake (fuel : nat) : M unit :=
  espeak_thread_process fuel ;;
  espeak_thread_stop.

(** ** alsa.c: the delivery callback *)

Definition minimum (x y : Z) : Z := if x <=? y then x else y.

(** One pass of the body of [while (numsamples > 0)]; the result is
    [(audio, numsamples)] at the end of the pass.  The two ALSA functions
    return a [long], which the assignments to the [int] variables [avail]
    and [samples_written] cut down to 32 bits. *)
Definition write_pass (audio numsamples : Z) : M (Z * Z) :=
  avail <- snd_pcm_avail_update ;;
  let avail := Int.wrap avail in
  if avail <=? 0 then ret (audio, numsamples)
  else
    let avail := minimum avail (32 * 2) in
    let to_write := minimum avail numsamples in
    samples_written <- snd_pcm_writei audio to_write ;;
    let samples_written := Int.wrap samples_written in
    if samples_written <? 0 then
      snd_pcm_prepare ;; ret (audio, numsamples)
    else
      ret (audio + samples_written, Int.sub numsamples samples_written).

Fixpoint write_loop (fuel : nat) (audio numsamples : Z) : M unit :=
  if numsamples >? 0 then
    match fuel with
    | O => fail OutOfFuel
    | S fuel' =>
        r <- write_pass audio numsamples ;;
        write_loop fuel' (fst r) (snd r)
    end
  else ret tt.


(** [alsa_play_callback], over the loop it runs.  The state of the sink
    is read by [snd_pcm_status] and [snd_pcm_status_get_state], one query
    here. *)
Definition alsa_play_callback_over (loop : Z -> Z -> M unit)
           (audio numsamples : Z) : M Z :=
  flag <- gets stopped ;;
  if negb (is_zero flag) then
    snd_pcm_drop ;;
    modify (set_stopped 0) ;;
    ret 1
  else
    state <- snd_pcm_status_get_state ;;
    (if state =? SND_PCM_STATE_RUNNING then ret tt
     else snd_pcm_prepare ;; ret tt) ;;
    loop audio numsamples ;;
    ret 0.

Definition alsa_play_callback (fuel : nat) : Z -> Z -> M Z :=
  alsa_play_callback_over (write_loop fuel).


End Program.

(** * Vocabulary of the specification *)

(** The new logical value as the specification words it: the value itself
    when the mode is Absolute, current plus value for Increment, current
    minus value for Decrement, in C [int] arithmetic. *)
Definition logical_target (current x : Z) (mode : adjust_t) : Z :=
  match mode with
  | ADJ_SET => x
  | ADJ_INC => Int.add current x
  | ADJ_DEC => Int.sub current x
  end.

(** The value each setter hands to eSpeak for a logical value [t]. *)
Definition native (f : field) (t : Z) : Z :=
  match f with
  | Frequency => Int.mul t 11
  | Pitch => Int.mul t 11
  | Punctuation => t
  | Rate => Int.add (Int.mul t 34) 84
  | Volume => Int.mul (Int.add t 1) 22
  end.

(** What [free_entry] releases for one entry, in order. *)
Definition releases (e : espeak_entry_t) : list event :=
  match cmd e with
  | CMD_SPEAK_TEXT => [Free (TextBuffer (buf e)); Free (Entry e)]
  | _ => [Free (Entry e)]
  end.

Definition is_speak_text (e : espeak_entry_t) : bool :=
  match cmd e with CMD_SPEAK_TEXT => true | _ => false end.

(** The text buffers a trace frees, oldest first, one per [free] call. *)
Fixpoint freed_buffers (t : list event) : list ptr :=
  match t with
  | [] => []
  | Free (TextBuffer p) :: t' => p :: freed_buffers t'
  | _ :: t' => freed_buffers t'
  end.

(** The frame counts of the calls to [snd_pcm_writei] in a trace, with
    what each call returned. *)
Fixpoint writes (t : list event) : list (Z * Z) :=
  match t with
  | [] => []
  | Alsa (pcm_writei _ n) r :: t' => (n, r) :: writes t'
  | _ :: t' => writes t'
  end.

Definition total_written (t : list event) : Z :=
  fold_right (fun nr acc => snd nr + acc) 0 (writes t).

(** The calls made to eSpeak in a trace. *)
Fixpoint espeak_calls (t : list event) : list espeak_call :=
  match t with
  | [] => []
  | Espeak c _ :: t' => c :: espeak_calls t'
  | _ :: t' => espeak_calls t'
  end.




(** ** Library stand-ins for the concrete runs *)

Definition espeak_accepting : list event -> espeak_call -> espeak_ERROR :=
  fun _ _ => EE_OK.

Definition espeak_rejecting : list event -> espeak_call -> espeak_ERROR :=
  fun _ _ => EE_INTERNAL_ERROR.

(** A sink that is running, always has room for 1024 frames and takes all
    the frames it is offered. *)
Definition alsa_roomy : list event -> alsa_call -> Z :=
  fun _ c =>
    match c with
    | pcm_writei _ frames => frames
    | pcm_avail_update => 1024
    | pcm_status_get_state => SND_PCM_STATE_RUNNING
    | _ => 0
    end.

(** Sample queue entries. *)
Definition say (text : ptr) : espeak_entry_t := mk_entry CMD_SPEAK_TEXT ADJ_SET 0 text 5.
Definition voice_command : espeak_entry_t := mk_entry CMD_SET_VOICE ADJ_SET 0 0 0.
Definition rate_command (mode : adjust_t) (x : Z) : espeak_entry_t :=
  mk_entry CMD_SET_RATE mode x 0 0.
Definition stop_command : espeak_entry_t := mk_entry CMD_STOP ADJ_SET 0 0 0.

Definition synth0 : synth_t := mk_synth 5 5 0 5 "en" 5 0 0.

(** A world with the given queue and flags and an empty trace. *)
Definition world0 (q : list espeak_entry_t) (stopped0 must_stop0 : Z) : world :=
  mk_world synth0 q stopped0 must_stop0 1 [].

(** * Start-up: [init_audio] (alsa.c) and the head of [espeak_thread] *)

(** The ALSA calls of [init_audio], by the function called; the handle and
    the parameter block are the statics of alsa.c. *)
Inductive setup_call : Type :=
| pcm_open (name : string)
| pcm_hw_params_malloc
| pcm_status_malloc
| pcm_hw_params_any
| pcm_hw_params_set_access (access : Z)
| pcm_hw_params_set_format (format : Z)
| pcm_hw_params_set_channels (channels : Z)
| pcm_hw_params_set_rate_near (rate : Z)
| pcm_hw_params.

(** What start-up does that can be observed: the calls with their return
    codes, the lines written to stderr, and the registration of the
    callback. *)
Inductive setup_event : Type :=
| Setup (c : setup_call) (rc : Z)
| SoundError (msg : string) (err : Z)
| Message (msg : string)
| SetSynthCallback.

(** [SND_PCM_ACCESS_RW_INTERLEAVED] and [SND_PCM_FORMAT_S16_LE] of
    asoundlib.h, [AUDIO_OUTPUT_RETRIEVAL] of speak_lib.h. *)
Definition SND_PCM_ACCESS_RW_INTERLEAVED : Z := 3.
Definition SND_PCM_FORMAT_S16_LE : Z := 2.
Definition AUDIO_OUTPUT_RETRIEVAL : Z := 1.

Definition set_should_run (v : Z) (w : world) : world :=
  mk_world (synth w) (queue w) (stopped w) (runner_must_stop w) v (trace w).

(** [sound_error]: a line on stderr, and the code handed back. *)
Definition sound_error (err : Z) (msg : string) (log : list setup_event)
  : Z * list setup_event :=
  (err, log ++ [SoundError msg err]).

Section Startup.

(** ALSA during set-up, and [espeak_Initialize] by output mode. *)
Variable setup_lib : list setup_event -> setup_call -> Z.
Variable espeak_Initialize : Z -> Z.

(** [rc = call; if (rc < 0) return sound_error(rc, msg);] and the rest of
    the function as [next]. *)
Definition checked (c : setup_call) (msg : string)
           (next : list setup_event -> Z * list setup_event)
           (log : list setup_event) : Z * list setup_event :=
  let rc := setup_lib log c in
  let log := log ++ [Setup c rc] in
  if rc <? 0 then sound_error rc msg log else next log.

Definition init_audio (rate : Z) : list setup_event -> Z * list setup_event :=
  checked (pcm_open "default") "unable to open pcm device" (
  checked pcm_hw_params_malloc
          "Unable to allocate memory to store audio parameters" (
  checked pcm_status_malloc "Unable to allocate memory to store PCM status" (
  checked pcm_hw_params_any
          "Unable to establish defaults for hardware parameters." (
  checked (pcm_hw_params_set_access SND_PCM_ACCESS_RW_INTERLEAVED)
          "Error selecting interleaved mode." (
  checked (pcm_hw_params_set_format SND_PCM_FORMAT_S16_LE)
          "Unable to select signed 16-bit samples" (
  checked (pcm_hw_params_set_channels 1) "Unable to use mono output." (
  checked (pcm_hw_params_set_rate_near rate) "Unable to set sample rate" (
  checked pcm_hw_params "unable to set hw parameters" (
  fun log => (0, log ++ [SetSynthCallback])))))))))).

(** [espeak_thread] from [select_audio_mode] to the call of [init_audio];
    the argument of [init_audio] is [rate] converted to [unsigned int]. *)
Definition espeak_thread_init (w : world) : world * list setup_event :=
  let audio_mode := AUDIO_OUTPUT_RETRIEVAL in
  let rate := espeak_Initialize audio_mode in
  let started :=
    if rate <? 0
    then (set_should_run 0 w, [Message "Unable to initialize espeak."])
    else (w, []) in
  let audio := init_audio (rate mod Int.modulus) (snd started) in
  (if fst audio <? 0 then set_should_run 0 (fst started) else fst started,
   snd audio).

End Startup.

(** ** Vocabulary of the further properties *)

(** The call [speak_text] makes for a SpeakText entry. *)
Definition speak_call (e : espeak_entry_t) : espeak_call :=
  Synth (buf e) (size_t_of (Int.add (len e) 1)).

(** The calls to [espeak_Synth] in a trace, oldest first. *)
Fixpoint synth_calls (t : list event) : list espeak_call :=
  match t with
  | [] => []
  | Espeak (Synth text size) _ :: t' => Synth text size :: synth_calls t'
  | _ :: t' => synth_calls t'
  end.

(** Every block a trace frees. *)
Fixpoint frees (t : list event) : list block :=
  match t with
  | [] => []
  | Free b :: t' => b :: frees t'
  | _ :: t' => frees t'
  end.

(** The calls to [snd_pcm_writei] in a trace, as
    [(audio, frames offered, result)]. *)
Fixpoint writes_at (t : list event) : list (Z * Z * Z) :=
  match t with
  | [] => []
  | Alsa (pcm_writei a n) r :: t' => (a, n, r) :: writes_at t'
  | _ :: t' => writes_at t'
  end.

(** Writes that follow one another in the chunk: each starts at [audio]
    plus the frames the earlier writes reported as taken, a report being
    the result of [snd_pcm_writei] as the [int] [samples_written] holds
    it. *)
Fixpoint contiguous (audio : Z) (ws : list (Z * Z * Z)) : Prop :=
  match ws with
  | [] => True
  | (a, _, r) :: ws' =>
      a = audio /\
      contiguous (if Int.wrap r <? 0 then audio else audio + Int.wrap r) ws'
  end.

(** A write that offers between 1 and 64 frames. *)
Definition bounded_write (a_k_r : Z * Z * Z) : Prop :=
  0 < snd (fst a_k_r) <= 64.

(** The setup calls a log holds, and whether the callback was registered. *)
Fixpoint setup_calls (log : list setup_event) : list (setup_call * Z) :=
  match log with
  | [] => []
  | Setup c rc :: log' => (c, rc) :: setup_calls log'
  | _ :: log' => setup_calls log'
  end.

Fixpoint stderr_lines (log : list setup_event) : list string :=
  match log with
  | [] => []
  | SoundError msg _ :: log' => msg :: stderr_lines log'
  | Message msg :: log' => msg :: stderr_lines log'
  | _ :: log' => stderr_lines log'
  end.

Fixpoint callback_registered (log : list setup_event) : bool :=
  match log with
  | [] => false
  | SetSynthCallback :: _ => true
  | _ :: log' => callback_registered log'
  end.

(** The ALSA calls of [init_audio] in the order of the source. *)
Definition init_audio_calls (rate : Z) : list setup_call :=
  [ pcm_open "default"; pcm_hw_params_malloc; pcm_status_malloc; pcm_hw_params_any;
    pcm_hw_params_set_access SND_PCM_ACCESS_RW_INTERLEAVED;
    pcm_hw_params_set_format SND_PCM_FORMAT_S16_LE;
    pcm_hw_params_set_channels 1; pcm_hw_params_set_rate_near rate; pcm_hw_params ].

Definition succeeded (c_rc : setup_call * Z) : Prop := 0 <= snd c_rc.

(** A sound system on which every set-up call succeeds, and one without a
    PCM device. *)
Definition setup_ok : list setup_event -> setup_call -> Z := fun _ _ => 0.

Definition setup_no_device : list setup_event -> setup_call -> Z :=
  fun _ c => match c with pcm_open _ => -2 | _ => 0 end.

(** A sink that takes at most 10 frames a call, and one that never has
    room. *)
Definition alsa_short : list event -> alsa_call -> Z :=
  fun _ c =>
    match c with
    | pcm_writei _ frames => minimum frames 10
    | pcm_avail_update => 1024
    | pcm_status_get_state => SND_PCM_STATE_RUNNING
    | _ => 0
    end.

Definition alsa_full : list event -> alsa_call -> Z :=
  fun _ c =>
    match c with
    | pcm_status_get_state => SND_PCM_STATE_RUNNING
    | _ => 0
    end.

(** * Properties *)

(** ** C [int] arithmetic *)

Lemma wrap_in_range (z : Z) : Int.in_range (Int.wrap z).
Proof.
  unfold Int.in_range, Int.wrap, Int.min_signed, Int.max_signed, Int.modulus.
  pose proof (Z.mod_pos_bound (z - -2147483648) 4294967296 eq_refl). lia.
Qed.

Lemma wrap_exact (z : Z) : Int.in_range z -> Int.wrap z = z.
Proof.
  unfold Int.in_range, Int.wrap, Int.min_signed, Int.max_signed, Int.modulus.
  intros H. rewrite Z.mod_small; lia.
Qed.

Lemma wrap_add_wrap_l (a b : Z) : Int.wrap (Int.wrap a + b) = Int.wrap (a + b).
Proof.
  unfold Int.wrap. f_equal.
  replace ((a - Int.min_signed) mod Int.modulus + Int.min_signed + b - Int.min_signed)
    with ((a - Int.min_signed) mod Int.modulus + b) by ring.
  rewrite Z.add_mod_idemp_l by (unfold Int.modulus; lia).
  f_equal. ring.
Qed.

(** Negate, then add the current value: the decrement of the setters. *)
Lemma add_neg_is_sub (x v : Z) : Int.add (Int.neg x) v = Int.sub v x.
Proof.
  unfold Int.add, Int.neg, Int.sub. rewrite wrap_add_wrap_l. f_equal. ring.
Qed.

Lemma add_comm (x v : Z) : Int.add x v = Int.add v x.
Proof. unfold Int.add. f_equal. ring. Qed.

Lemma is_ok_iff (rc : espeak_ERROR) : is_ok rc = true <-> rc = EE_OK.
Proof. destruct rc; simpl; split; congruence. Qed.

Lemma is_ok_false_iff (rc : espeak_ERROR) : is_ok rc = false <-> rc <> EE_OK.
Proof. destruct rc; simpl; split; congruence. Qed.

(** ** The parameter store *)

(** What the code computes before it calls eSpeak is the logical target of
    the specification. *)
Lemma adjusted_value (v x : Z) (adj : adjust_t) :
  match adj with
  | ADJ_SET => match adj with ADJ_DEC => Int.neg x | _ => x end
  | _ => Int.add (match adj with ADJ_DEC => Int.neg x | _ => x end) v
  end = logical_target v x adj.
Proof.
  destruct adj; simpl.
  - apply add_neg_is_sub.
  - reflexivity.
  - apply add_comm.
Qed.

Section StoreProperties.

Variable espeak_lib : list event -> espeak_call -> espeak_ERROR.

(** One run of a setter: the call it makes, and the commit that follows
    an [EE_OK] only. *)
Lemma apply_run (f : field) (x : Z) (adj : adjust_t) (w : world) :
  let t := logical_target (stored f (synth w)) x adj in
  let c := SetParameter (parameter_of f) (native f t) in
  let rc := espeak_lib (trace w) c in
  apply espeak_lib f x adj w =
  Done rc (if is_ok rc
           then set_synth (store f t (synth w)) (log (Espeak c rc) w)
           else log (Espeak c rc) w).
Proof.
  destruct f; cbv zeta;
    unfold apply, set_frequency, set_pitch, set_punctuation, set_rate, set_volume,
      espeak_SetParameter, espeak, bind, gets, modify, ret;
    cbn [stored parameter_of native store synth trace log];
    rewrite adjusted_value;
    unfold frequencyMultiplier, pitchMultiplier, rateMultiplier, rateOffset,
      volumeMultiplier;
    match goal with |- context [is_ok ?r] => destruct (is_ok r) end;
    reflexivity.
Qed.

End StoreProperties.

(** At start-up the worker sets the default voice and the four defaults of
    5: eSpeak receives range 55, pitch 55, rate 254 and volume 132. *)
Example espeak_thread_setup_defaults :
  exists w',
    espeak_thread_setup espeak_accepting (Some "en-us"%string)
                        (mk_world (mk_synth 0 0 0 0 EmptyString 0 0 0) [] 0 0 1 [])
    = Done tt w' /\
    synth w' = mk_synth 5 5 0 5 "en-us" 5 0 0 /\
    espeak_calls (trace w') =
    [ SetVoiceByName "en-us"; SetParameter espeakRANGE 55; SetParameter espeakPITCH 55;
      SetParameter espeakRATE 254; SetParameter espeakVOLUME 132;
      SetParameter espeakCAPITALS 0 ].
Proof. eexists. split; [vm_compute; reflexivity|]. split; reflexivity. Qed.

(** ** The queue *)

Section QueueProperties.

Variable espeak_lib : list event -> espeak_call -> espeak_ERROR.

Lemma free_entry_run (e : espeak_entry_t) (w : world) :
  free_entry e w =
  Done tt (mk_world (synth w) (queue w) (stopped w) (runner_must_stop w)
                    (should_run w) (trace w ++ releases e)).
Proof.
  unfold free_entry, releases, free, bind, modify, ret, log.
  destruct (cmd e); cbn [synth queue stopped runner_must_stop should_run trace];
    rewrite <- ?app_assoc; reflexivity.
Qed.

(** With one unit of fuel per queued entry the loop of [queue_clear] runs
    to its end, and more fuel changes nothing. *)
Lemma queue_clear_loop_enough (fuel : nat) :
  forall w : world,
    (List.length (queue w) <= fuel)%nat ->
    queue_clear_loop fuel w =
    Done tt (mk_world (synth w) [] (stopped w) (runner_must_stop w)
                      (should_run w) (trace w ++ flat_map releases (queue w))).
Proof.
  induction fuel as [|fuel IH]; intros [s q st rms sr tr] Hlen;
    destruct q as [|e q]; cbn [queue List.length] in Hlen; try lia.
  - cbn. rewrite app_nil_r. reflexivity.
  - cbn. rewrite app_nil_r. reflexivity.
  - cbn [queue_clear_loop]. unfold bind at 1, queue_peek, gets.
    cbn [queue hd_error]. unfold bind at 1. rewrite free_entry_run.
    unfold bind at 1, queue_remove, modify, set_queue.
    cbn [synth queue stopped runner_must_stop should_run trace tl].
    rewrite IH by (cbn [queue]; lia).
    cbn [synth queue stopped runner_must_stop should_run trace flat_map].
    rewrite <- app_assoc. reflexivity.
Qed.

Lemma queue_clear_run (w : world) :
  queue_clear w =
  Done tt (mk_world (synth w) [] (stopped w) (runner_must_stop w)
                    (should_run w) (trace w ++ flat_map releases (queue w))).
Proof.
  unfold queue_clear, bind, gets. apply queue_clear_loop_enough. lia.
Qed.

Lemma freed_buffers_app (t u : list event) :
  freed_buffers (t ++ u) = freed_buffers t ++ freed_buffers u.
Proof.
  induction t as [|ev t IH]; [reflexivity|].
  destruct ev as [c rc|c r|[p|e]]; cbn; rewrite IH; reflexivity.
Qed.

Lemma freed_buffers_releases (q : list espeak_entry_t) :
  freed_buffers (flat_map releases q) = map buf (filter is_speak_text q).
Proof.
  induction q as [|e q IH]; [reflexivity|].
  cbn [flat_map]. rewrite freed_buffers_app, IH.
  unfold releases, is_speak_text. cbn [filter].
  destruct (cmd e); reflexivity.
Qed.

(** A parameter command runs the setter of its field. *)
Lemma queue_process_switch_param (f : field) (e : espeak_entry_t) (w : world) :
  cmd e = command_of f ->
  queue_process_switch espeak_lib e w =
  match apply espeak_lib f (value e) (adjust e) w with
  | Done rc w1 => Done (Some rc) w1
  | Fault x => Fault x
  end.
Proof.
  intros Hcmd. unfold queue_process_switch. rewrite Hcmd.
  destruct f; reflexivity.
Qed.

Lemma command_of_cases (c : command_t) :
  (exists f, c = command_of f) \/
  c = CMD_SET_VOICE \/ c = CMD_SPEAK_TEXT \/ c = CMD_STOP.
Proof.
  destruct c;
    [ left; exists Frequency | left; exists Pitch | left; exists Punctuation
    | left; exists Rate | right; left | left; exists Volume
    | right; right; left | right; right; right ]; reflexivity.
Qed.

(** Every tag the switch has a case for leaves [error] set, and the
    queue as it was. *)
Lemma queue_process_switch_handled (e : espeak_entry_t) (w : world) :
  cmd e <> CMD_STOP ->
  exists rc w1,
    queue_process_switch espeak_lib e w = Done (Some rc) w1 /\
    queue w1 = queue w.
Proof.
  intros Hcmd.
  destruct (command_of_cases (cmd e)) as [[f Hf]|[Hv|[Hs|Hd]]]; [| | |contradiction].
  - rewrite (queue_process_switch_param f e w Hf), apply_run.
    eexists; eexists; split; [reflexivity|].
    match goal with |- context [is_ok ?r] => destruct (is_ok r) end; reflexivity.
  - unfold queue_process_switch. rewrite Hv.
    exists EE_OK, w. split; reflexivity.
  - unfold queue_process_switch. rewrite Hs.
    eexists; eexists; split; [reflexivity|reflexivity].
Qed.

(** The conditional removal that ends [queue_process_entry]. *)
Lemma queue_process_entry_run (e : espeak_entry_t) (q : list espeak_entry_t)
      (w w1 : world) (rc : espeak_ERROR) :
  queue w = e :: q ->
  queue_process_switch espeak_lib e w = Done (Some rc) w1 ->
  queue w1 = queue w ->
  queue_process_entry espeak_lib w =
  Done tt (if is_ok rc then set_queue q w1 else w1).
Proof.
  intros Hq Hsw Hq1.
  unfold queue_process_entry, bind, queue_peek, gets.
  rewrite Hq. cbn [hd_error]. rewrite Hsw.
  destruct (is_ok rc); [|reflexivity].
  unfold queue_remove, modify. rewrite Hq1, Hq. reflexivity.
Qed.

End QueueProperties.

(** ** The delivery callback *)

Lemma writes_app (t u : list event) : writes (t ++ u) = writes t ++ writes u.
Proof.
  induction t as [|ev t IH]; [reflexivity|].
  destruct ev as [c rc|[| | | |a k] r|b]; cbn; rewrite IH; reflexivity.
Qed.

Lemma total_written_app (t u : list event) :
  total_written (t ++ u) = total_written t + total_written u.
Proof.
  unfold total_written. rewrite writes_app.
  induction (writes t) as [|nr l IH]; cbn; [reflexivity|]. rewrite IH. ring.
Qed.

Section CallbackProperties.

Variable alsa_lib : list event -> alsa_call -> Z.


Lemma write_pass_done (audio numsamples : Z) (w : world) :
  exists r w', write_pass alsa_lib audio numsamples w = Done r w' /\
               stopped w' = stopped w.
Proof.
  unfold write_pass, snd_pcm_avail_update, snd_pcm_writei, snd_pcm_prepare,
    alsa, bind, ret.
  cbv zeta.
  destruct (Int.wrap (alsa_lib (trace w) pcm_avail_update) <=? 0).
  - eexists; eexists; split; reflexivity.
  - match goal with |- context [?r <? 0] => destruct (r <? 0) end;
      eexists; eexists; split; reflexivity.
Qed.





End CallbackProperties.

(** A sink with room: [snd_pcm_avail_update] always reports free frames and
    [snd_pcm_writei] takes every frame it is offered. *)
Section RoomySink.

Variable alsa_lib : list event -> alsa_call -> Z.
Hypothesis has_room : forall t, 0 < Int.wrap (alsa_lib t pcm_avail_update).
Hypothesis takes_all : forall t audio k, alsa_lib t (pcm_writei audio k) = k.

Lemma minimum_cases (x y : Z) :
  (x <= y /\ minimum x y = x) \/ (y < x /\ minimum x y = y).
Proof. unfold minimum. destruct (Z.leb_spec x y); [left|right]; split; auto. Qed.


End RoomySink.

(** ** The stop protocol *)

Section StopProperties.

Variable espeak_lib : list event -> espeak_call -> espeak_ERROR.

(** With a stop pending the inner loop of the worker runs no pass. *)
Lemma espeak_thread_process_stop_pending (fuel : nat) (w : world) :
  runner_must_stop w <> 0 ->
  espeak_thread_process espeak_lib fuel w = Done tt w.
Proof.
  intros Hstop.
  assert (Hz : is_zero (runner_must_stop w) = false)
    by (unfold is_zero; apply Z.eqb_neq; exact Hstop).
  destruct fuel; cbn [espeak_thread_process];
    unfold queue_peek, bind, gets; rewrite Hz, andb_false_r; reflexivity.
Qed.

Lemma espeak_thread_stop_run (w : world) :
  runner_must_stop w <> 0 ->
  espeak_thread_stop espeak_lib w =
  Done tt (mk_world (synth w) [] 1 0 (should_run w)
                    ((trace w ++ flat_map releases (queue w))
                       ++ [Espeak Cancel
                             (espeak_lib (trace w ++ flat_map releases (queue w))
                                         Cancel)])).
Proof.
  intros Hstop.
  assert (Hz : is_zero (runner_must_stop w) = false)
    by (unfold is_zero; apply Z.eqb_neq; exact Hstop).
  unfold espeak_thread_stop. unfold bind at 1, gets. rewrite Hz.
  unfold bind at 1. rewrite queue_clear_run. reflexivity.
Qed.

End StopProperties.

(** * The claims *)




(** C9.  For every state of the queue, [queue_clear] returns, leaves the
    queue empty, and frees, entry by entry in queue order, the text buffer
    of an entry when and only when it is a SpeakText entry, then the entry
    itself: the buffers freed are exactly those of the SpeakText entries,
    one [free] for each. *)
Theorem queue_clear_drains (w : world) :
  exists w',
    queue_clear w = Done tt w' /\
    queue w' = [] /\
    trace w' = trace w ++ flat_map releases (queue w) /\
    freed_buffers (trace w') =
    freed_buffers (trace w) ++ map buf (filter is_speak_text (queue w)).
Proof.
  eexists. split; [apply queue_clear_run|].
  cbn [queue trace]. repeat split.
  rewrite freed_buffers_app, freed_buffers_releases. reflexivity.
Qed.

(** C10, on the code: for an entry whose tag the switch has no case for,
    the switch leaves the local [error] without a value, and the test
    [error == EE_OK] of [queue_process_entry] reads it uninitialised. *)
Theorem unhandled_tag_reads_uninitialised_error
        (espeak_lib : list event -> espeak_call -> espeak_ERROR)
        (s : synth_t) (q : list espeak_entry_t) (flag must_stop run : Z)
        (t : list event) (mode : adjust_t) (x : Z) (b : ptr) (l : Z) :
  let current := mk_entry CMD_STOP mode x b l in
  let w := mk_world s (current :: q) flag must_stop run t in
  queue_process_switch espeak_lib current w = Done None w /\
  queue_process_entry espeak_lib w = Fault UninitialisedRead.
Proof. split; reflexivity. Qed.




(** C5, on the code.  For every command at the head of the queue,
    [queue_process_entry] peeks and runs the switch with the head still in
    place.  When the tag is one the switch handles, the switch returns an
    error code and the head is removed exactly when that code is [EE_OK];
    after any other code the queue is the one the run started from.  When
    the tag has no case, the switch stores nothing in [error] and the test
    that decides the removal reads it uninitialised: for that head the
    removal is not decided by the success of any execution. *)
Theorem head_removal_by_tag
        (espeak_lib : list event -> espeak_call -> espeak_ERROR)
        (e : espeak_entry_t) (q : list espeak_entry_t) (w : world) :
  queue w = e :: q ->
  (cmd e <> CMD_STOP /\
   exists rc w1 w2,
     queue_process_switch espeak_lib e w = Done (Some rc) w1 /\
     queue w1 = e :: q /\
     queue_process_entry espeak_lib w = Done tt w2 /\
     (queue w2 = q <-> rc = EE_OK) /\
     (rc = EE_OK -> w2 = set_queue q w1) /\
     (rc <> EE_OK -> w2 = w1))
  \/
  (cmd e = CMD_STOP /\
   queue_process_switch espeak_lib e w = Done None w /\
   queue_process_entry espeak_lib w = Fault UninitialisedRead).
Proof.
  intros Hq.
  destruct (command_of_cases (cmd e)) as [[f Hf]|[Hv|[Hs|Hd]]].
  4: { right. split; [exact Hd|].
       assert (Hsw : queue_process_switch espeak_lib e w = Done None w)
         by (unfold queue_process_switch; rewrite Hd; reflexivity).
       split; [exact Hsw|].
       unfold queue_process_entry, queue_peek, bind, gets. rewrite Hq. cbn [hd_error].
       rewrite Hsw. reflexivity. }
  all: left;
    assert (Hcmd : cmd e <> CMD_STOP)
      by (first [rewrite Hf; destruct f; discriminate
                |rewrite Hv; discriminate
                |rewrite Hs; discriminate]);
    (split; [exact Hcmd|]);
    destruct (queue_process_switch_handled espeak_lib e w Hcmd) as (rc & w1 & Hsw & Hq1);
    exists rc, w1; eexists; (split; [exact Hsw|]);
    (split; [congruence|]);
    (split; [apply (queue_process_entry_run espeak_lib e q w w1 rc Hq Hsw Hq1)|]);
    destruct (is_ok rc) eqn:Hrc;
    [ apply is_ok_iff in Hrc;
      split; [split; auto|]; split; [reflexivity|contradiction]
    | apply is_ok_false_iff in Hrc;
      split; [|split; [contradiction|reflexivity]];
      split; [|contradiction];
      intros Heq; rewrite Hq1, Hq in Heq;
      apply (f_equal (@List.length _)) in Heq; cbn in Heq; lia ].
Qed.

Lemma head_removal_by_tag_witness :
  queue (world0 [stop_command; say 100] 0 0) = stop_command :: [say 100] /\
  queue_process_entry espeak_accepting (world0 [stop_command; say 100] 0 0)
  = Fault UninitialisedRead.
Proof.
  split; [reflexivity|].
  destruct (head_removal_by_tag espeak_accepting stop_command [say 100]
              (world0 [stop_command; say 100] 0 0) eq_refl)
    as [(Hcmd & _)|(_ & _ & Hfault)].
  - exfalso. apply Hcmd. reflexivity.
  - exact Hfault.
Defined.

(** C4.  A parameter command at the head of the queue runs the setter of its
    field, which asks eSpeak once; [rc] is what eSpeak answers to that
    call.  When [rc] is [EE_OK] the store holds the new logical value [t]
    in the field, not the native value that was passed to eSpeak.  When
    [rc] is an error the store is the one before the attempt, the command is
    still the head of the queue, and the next processing attempt makes the
    same call again. *)
Theorem failed_apply_keeps_store_and_command
        (espeak_lib : list event -> espeak_call -> espeak_ERROR)
        (f : field) (e : espeak_entry_t) (q : list espeak_entry_t) (w : world) :
  queue w = e :: q ->
  cmd e = command_of f ->
  let t := logical_target (stored f (synth w)) (value e) (adjust e) in
  let c := SetParameter (parameter_of f) (native f t) in
  let rc := espeak_lib (trace w) c in
  exists w1,
    apply espeak_lib f (value e) (adjust e) w = Done rc w1 /\
    trace w1 = trace w ++ [Espeak c rc] /\
    (rc = EE_OK -> synth w1 = store f t (synth w) /\ stored f (synth w1) = t) /\
    (rc <> EE_OK ->
     synth w1 = synth w /\
     queue_process_entry espeak_lib w = Done tt w1 /\
     queue_peek w1 = Done (Some e) w1 /\
     exists w2,
       queue_process_entry espeak_lib w1 = Done tt w2 /\
       trace w2 = trace w1 ++ [Espeak c (espeak_lib (trace w1) c)]).
Proof.
  intros Hq Hcmd t c rc.
  pose proof (apply_run espeak_lib f (value e) (adjust e) w) as Hrun.
  cbv zeta in Hrun. fold t in Hrun. fold c in Hrun. fold rc in Hrun.
  destruct (is_ok rc) eqn:Hrc.
  - eexists. split; [exact Hrun|]. split; [reflexivity|]. split.
    + intros _. split; [reflexivity|]. destruct f; reflexivity.
    + apply is_ok_iff in Hrc. contradiction.
  - exists (log (Espeak c rc) w). split; [exact Hrun|]. split; [reflexivity|].
    split; [apply is_ok_false_iff in Hrc; contradiction|].
    intros _.
    assert (Hsw : queue_process_switch espeak_lib e w
                  = Done (Some rc) (log (Espeak c rc) w))
      by (rewrite (queue_process_switch_param espeak_lib f e w Hcmd), Hrun; reflexivity).
    split; [reflexivity|]. split.
    { rewrite (queue_process_entry_run espeak_lib e q w _ rc Hq Hsw eq_refl), Hrc.
      reflexivity. }
    split; [unfold queue_peek, gets; cbn [log queue]; rewrite Hq; reflexivity|].
    set (w1 := log (Espeak c rc) w).
    pose proof (apply_run espeak_lib f (value e) (adjust e) w1) as Hrun1.
    cbv zeta in Hrun1. change (synth w1) with (synth w) in Hrun1.
    fold t in Hrun1. fold c in Hrun1.
    set (rc2 := espeak_lib (trace w1) c) in *.
    assert (Hq1 : queue w1 = e :: q) by exact Hq.
    eexists. split.
    + eapply (queue_process_entry_run espeak_lib e q w1 _ rc2 Hq1).
      * rewrite (queue_process_switch_param espeak_lib f e w1 Hcmd), Hrun1. reflexivity.
      * destruct (is_ok rc2); reflexivity.
    + destruct (is_ok rc2); reflexivity.
Qed.

Lemma failed_apply_keeps_store_and_command_witness :
  (exists w1,
      apply espeak_rejecting Rate 2 ADJ_INC (world0 [rate_command ADJ_INC 2] 0 0)
      = Done EE_INTERNAL_ERROR w1 /\
      stored Rate (synth w1) = 5 /\
      queue w1 = [rate_command ADJ_INC 2] /\
      trace w1 = [Espeak (SetParameter espeakRATE 322) EE_INTERNAL_ERROR]) /\
  (exists w1,
      apply espeak_accepting Rate 2 ADJ_INC (world0 [rate_command ADJ_INC 2] 0 0)
      = Done EE_OK w1 /\
      stored Rate (synth w1) = 7 /\
      trace w1 = [Espeak (SetParameter espeakRATE 322) EE_OK]).
Proof.
  split.
  - destruct (failed_apply_keeps_store_and_command espeak_rejecting Rate
                (rate_command ADJ_INC 2) [] (world0 [rate_command ADJ_INC 2] 0 0)
                eq_refl eq_refl) as (w1 & Hrun & Htrace & _ & Hfail).
    destruct Hfail as (Hsynth & _ & Hpeek & _); [discriminate|].
    exists w1. split; [exact Hrun|]. split; [rewrite Hsynth; reflexivity|].
    split; [|exact Htrace].
    unfold queue_peek, gets in Hpeek. vm_compute in Hrun. injection Hrun as <-.
    reflexivity.
  - destruct (failed_apply_keeps_store_and_command espeak_accepting Rate
                (rate_command ADJ_INC 2) [] (world0 [rate_command ADJ_INC 2] 0 0)
                eq_refl eq_refl) as (w1 & Hrun & Htrace & Hok & _).
    destruct Hok as (_ & Hstored); [reflexivity|].
    exists w1. split; [exact Hrun|]. split; [exact Hstored|exact Htrace].
Defined.

(** C3.  For every field, stored value [v] and command value [x], the
    setter computes the new logical value [t] as [x] for Absolute, [v + x]
    for Increment and [v - x] for Decrement, in C [int] arithmetic (the
    exact sum or difference whenever that is representable): [t] is the
    value whose native form is passed to eSpeak, and the value stored when
    eSpeak returns [EE_OK]. *)
Theorem relative_adjustment
        (espeak_lib : list event -> espeak_call -> espeak_ERROR)
        (f : field) (x : Z) (mode : adjust_t) (w : world) :
  let v := stored f (synth w) in
  let t := match mode with
           | ADJ_SET => x
           | ADJ_INC => Int.add v x
           | ADJ_DEC => Int.sub v x
           end in
  exists rc w',
    apply espeak_lib f x mode w = Done rc w' /\
    trace w' = trace w ++ [Espeak (SetParameter (parameter_of f) (native f t)) rc] /\
    (rc = EE_OK -> stored f (synth w') = t) /\
    (Int.in_range (v + x) -> Int.add v x = v + x) /\
    (Int.in_range (v - x) -> Int.sub v x = v - x).
Proof.
  intros v t.
  pose proof (apply_run espeak_lib f x mode w) as Hrun. cbv zeta in Hrun.
  change (logical_target (stored f (synth w)) x mode) with t in Hrun.
  match type of Hrun with _ = Done ?r _ => set (rc := r) in * end.
  exists rc. eexists. split; [exact Hrun|].
  split; [destruct (is_ok rc); reflexivity|].
  split; [|split; apply wrap_exact].
  intros Hok. apply is_ok_iff in Hok. rewrite Hok. destruct f; reflexivity.
Qed.

(** The specification's examples: from a stored rate of 5, Increment 2
    stores 7, Decrement 2 stores 3 and Absolute 9 stores 9. *)
Lemma relative_adjustment_witness :
  (exists rc w', apply espeak_accepting Rate 2 ADJ_INC (world0 [] 0 0) = Done rc w' /\
                 stored Rate (synth w') = 7) /\
  (exists rc w', apply espeak_accepting Rate 2 ADJ_DEC (world0 [] 0 0) = Done rc w' /\
                 stored Rate (synth w') = 3) /\
  (exists rc w', apply espeak_accepting Rate 9 ADJ_SET (world0 [] 0 0) = Done rc w' /\
                 stored Rate (synth w') = 9).
Proof.
  split; [|split].
  - destruct (relative_adjustment espeak_accepting Rate 2 ADJ_INC (world0 [] 0 0))
      as (rc & w' & Hrun & _ & Hstored & _).
    exists rc, w'. split; [exact Hrun|]. rewrite Hstored; [reflexivity|].
    vm_compute in Hrun. congruence.
  - destruct (relative_adjustment espeak_accepting Rate 2 ADJ_DEC (world0 [] 0 0))
      as (rc & w' & Hrun & _ & Hstored & _).
    exists rc, w'. split; [exact Hrun|]. rewrite Hstored; [reflexivity|].
    vm_compute in Hrun. congruence.
  - destruct (relative_adjustment espeak_accepting Rate 9 ADJ_SET (world0 [] 0 0))
      as (rc & w' & Hrun & _ & Hstored & _).
    exists rc, w'. split; [exact Hrun|]. rewrite Hstored; [reflexivity|].
    vm_compute in Hrun. congruence.
Defined.

(** C6 (as amended).  For every field the value passed to eSpeak is a fixed
    function of the new logical value [t]: [t * 11] for frequency and for
    pitch, [t * 34 + 84] for rate, [(t + 1) * 22] for volume, and [t]
    itself for punctuation.  Rate and volume are the two fields with an
    offset. *)
Theorem native_conversion
        (espeak_lib : list event -> espeak_call -> espeak_ERROR)
        (f : field) (x : Z) (mode : adjust_t) (w : world) :
  let t := logical_target (stored f (synth w)) x mode in
  exists rc w',
    apply espeak_lib f x mode w = Done rc w' /\
    espeak_calls (trace w') =
    espeak_calls (trace w) ++
      [ match f with
        | Frequency => SetParameter espeakRANGE (Int.mul t 11)
        | Pitch => SetParameter espeakPITCH (Int.mul t 11)
        | Rate => SetParameter espeakRATE (Int.add (Int.mul t 34) 84)
        | Volume => SetParameter espeakVOLUME (Int.mul (Int.add t 1) 22)
        | Punctuation => SetParameter espeakPUNCTUATION t
        end ].
Proof.
  intros t.
  pose proof (apply_run espeak_lib f x mode w) as Hrun. cbv zeta in Hrun.
  fold t in Hrun.
  match type of Hrun with _ = Done ?r _ => set (rc := r) in * end.
  assert (Hcalls : forall u c r, espeak_calls (u ++ [Espeak c r]) = espeak_calls u ++ [c]).
  { induction u as [|ev u IH]; intros c r; [reflexivity|].
    destruct ev; cbn; rewrite ?IH; reflexivity. }
  exists rc. eexists. split; [exact Hrun|].
  destruct (is_ok rc); cbn [trace set_synth log]; rewrite Hcalls;
    destruct f; reflexivity.
Qed.

(** C6, the claim as stated, fails for volume: setting the volume to the
    logical value 0 passes 22 to eSpeak, which is 0 times no multiplier. *)
Lemma volume_conversion_has_offset :
  (exists rc w',
      set_volume espeak_accepting 0 ADJ_SET (world0 [] 0 0) = Done rc w' /\
      espeak_calls (trace w') = [SetParameter espeakVOLUME 22]) /\
  ~ (exists k, Int.mul 0 k = 22).
Proof.
  split.
  - eexists; eexists; split; [vm_compute; reflexivity|reflexivity].
  - intros [k Hk]. unfold Int.mul in Hk. rewrite Z.mul_0_l in Hk.
    vm_compute in Hk. discriminate.
Qed.

Section CallbackClaims.

Variable alsa_lib : list event -> alsa_call -> Z.

Lemma write_loop_keeps_stopped (fuel : nat) :
  forall (audio numsamples : Z) (w : world),
    match write_loop alsa_lib fuel audio numsamples w with
    | Done _ w' => stopped w' = stopped w
    | Fault _ => True
    end.
Proof.
  induction fuel as [|fuel IH]; intros audio numsamples w; cbn [write_loop];
    destruct (numsamples >? 0); cbn; auto.
  unfold bind.
  destruct (write_pass_done alsa_lib audio numsamples w) as (r & w1 & -> & Hkept).
  specialize (IH (fst r) (snd r) w1).
  destruct (write_loop alsa_lib fuel (fst r) (snd r) w1); [congruence|exact I].
Qed.

(** The branch of the callback that finds the flag set. *)
Lemma alsa_play_callback_stopped (loop : Z -> Z -> M unit)
      (audio numsamples : Z) (w : world) :
  stopped w <> 0 ->
  alsa_play_callback_over alsa_lib loop audio numsamples w =
  Done 1 (set_stopped 0 (log (Alsa pcm_drop (alsa_lib (trace w) pcm_drop)) w)).
Proof.
  intros Hset. unfold alsa_play_callback_over. unfold bind at 1, gets.
  unfold is_zero. rewrite (proj2 (Z.eqb_neq _ _) Hset). reflexivity.
Qed.

(** The branch that finds it clear: the state query, a [snd_pcm_prepare]
    unless the sink is running, then the loop. *)
Lemma alsa_play_callback_clear (loop : Z -> Z -> M unit)
      (audio numsamples : Z) (w : world) :
  stopped w = 0 ->
  exists t,
    writes t = [] /\
    alsa_play_callback_over alsa_lib loop audio numsamples w =
    match loop audio numsamples
               (mk_world (synth w) (queue w) (stopped w) (runner_must_stop w)
                         (should_run w) (trace w ++ t)) with
    | Done _ w' => Done 0 w'
    | Fault x => Fault x
    end.
Proof.
  intros Hclear. unfold alsa_play_callback_over. unfold bind at 1, gets.
  unfold is_zero. rewrite Hclear. cbn [Z.eqb negb].
  unfold snd_pcm_status_get_state, snd_pcm_prepare, alsa. unfold bind at 1.
  set (state := alsa_lib (trace w) pcm_status_get_state).
  destruct (state =? SND_PCM_STATE_RUNNING).
  - exists [Alsa pcm_status_get_state state]. split; [reflexivity|].
    unfold bind, ret, log. rewrite Hclear. reflexivity.
  - eexists [Alsa pcm_status_get_state state; Alsa pcm_prepare _].
    split; [reflexivity|].
    unfold bind, ret, log.
    cbn [synth queue stopped runner_must_stop should_run trace].
    rewrite Hclear, <- app_assoc. reflexivity.
Qed.

Hypothesis has_room : forall t, 0 < Int.wrap (alsa_lib t pcm_avail_update).
Hypothesis takes_all : forall t audio k, alsa_lib t (pcm_writei audio k) = k.


End CallbackClaims.




(** C8 (as amended).  [stopped] is sticky between the store that sets it
    and one of two stores that clear it.  The setters, [set_voice],
    [queue_clear] and the write loop of the callback leave the flag as it
    is; [stop_speech] sets it to 1.  It is cleared by the worker in
    [speak_text], before the call to [espeak_Synth], and also by the audio
    callback: an invocation that finds the flag set drops the audio of the
    sink, clears the flag and returns 1, writing nothing; an invocation that
    finds it clear leaves it clear. *)
Theorem stopped_is_cleared_by_speak_text_and_by_the_callback
        (espeak_lib : list event -> espeak_call -> espeak_ERROR)
        (alsa_lib : list event -> alsa_call -> Z) (w : world) :
  (forall f x mode, exists rc w',
        apply espeak_lib f x mode w = Done rc w' /\ stopped w' = stopped w) /\
  (forall name, exists rc w',
        set_voice espeak_lib name w = Done rc w' /\ stopped w' = stopped w) /\
  (exists w', queue_clear w = Done tt w' /\ stopped w' = stopped w) /\
  (forall fuel audio numsamples,
      match write_loop alsa_lib fuel audio numsamples w with
      | Done _ w' => stopped w' = stopped w
      | Fault _ => True
      end) /\
  (exists rc w', stop_speech espeak_lib w = Done rc w' /\ stopped w' = 1) /\
  (exists rc w',
      speak_text espeak_lib w = Done rc w' /\ stopped w' = 0 /\
      trace w' = trace w ++ [Espeak (Synth (s_buf (synth w)) (size_t_of (Int.add (s_len (synth w)) 1))) rc]) /\
  (forall fuel audio numsamples,
      stopped w <> 0 ->
      exists r w',
        alsa_play_callback alsa_lib fuel audio numsamples w = Done 1 w' /\
        stopped w' = 0 /\
        trace w' = trace w ++ [Alsa pcm_drop r]) /\
  (forall fuel audio numsamples,
      stopped w = 0 ->
      match alsa_play_callback alsa_lib fuel audio numsamples w with
      | Done _ w' => stopped w' = 0
      | Fault _ => True
      end).
Proof.
  repeat match goal with |- _ /\ _ => split end.
  - intros f x mode. rewrite apply_run. eexists; eexists; split; [reflexivity|].
    match goal with |- context [is_ok ?r] => destruct (is_ok r) end; reflexivity.
  - intros name. unfold set_voice, espeak_SetVoiceByName, espeak, bind, gets, modify, ret.
    match goal with |- context [is_ok ?r] => destruct (is_ok r) end;
      eexists; eexists; split; reflexivity.
  - rewrite queue_clear_run. eexists; split; reflexivity.
  - intros fuel audio numsamples. apply write_loop_keeps_stopped.
  - eexists; eexists; split; reflexivity.
  - eexists; eexists; split; [reflexivity|]. split; reflexivity.
  - intros fuel audio numsamples Hset.
    unfold alsa_play_callback. rewrite alsa_play_callback_stopped by exact Hset.
    eexists; eexists; split; [reflexivity|]. split; reflexivity.
  - intros fuel audio numsamples Hclear.
    destruct (alsa_play_callback_clear alsa_lib (write_loop alsa_lib fuel)
                                       audio numsamples w Hclear) as (t & _ & Hrun).
    unfold alsa_play_callback. rewrite Hrun.
    match goal with |- context [write_loop alsa_lib fuel audio numsamples ?w0] =>
      pose proof (write_loop_keeps_stopped alsa_lib fuel audio numsamples w0) as Hkept
    end.
    destruct (write_loop alsa_lib fuel audio numsamples _); [|exact I].
    cbn [stopped] in Hkept. congruence.
Qed.

(** C8, the claim as stated, fails: an invocation of the audio callback
    that finds [stopped] set clears it, with no store by the worker. *)
Lemma callback_clears_stopped :
  exists w',
    alsa_play_callback alsa_roomy 8 0 100 (world0 [] 1 0) = Done 1 w' /\
    stopped (world0 [] 1 0) = 1 /\
    stopped w' = 0 /\
    trace w' = [Alsa pcm_drop 0].
Proof. eexists. split; [vm_compute; reflexivity|]. repeat split. Qed.

(** * Further properties of the code *)

(** ** The parameter store *)

(** X1.  A setter touches its own field and nothing else: the other four
    parameters, the voice and the text of the store, the queue and the
    flags are as before, whatever eSpeak answers, and the trace grows by the
    one call to eSpeak. *)
Theorem setter_changes_its_field_only
        (espeak_lib : list event -> espeak_call -> espeak_ERROR)
        (f : field) (x : Z) (mode : adjust_t) (w : world) :
  exists rc w',
    apply espeak_lib f x mode w = Done rc w' /\
    (forall g, g <> f -> stored g (synth w') = stored g (synth w)) /\
    voice (synth w') = voice (synth w) /\
    s_buf (synth w') = s_buf (synth w) /\
    s_len (synth w') = s_len (synth w) /\
    queue w' = queue w /\
    runner_must_stop w' = runner_must_stop w /\
    should_run w' = should_run w /\
    exists c, trace w' = trace w ++ [Espeak c rc].
Proof.
  rewrite apply_run.
  match goal with |- context [is_ok ?r] => set (rc := r) end.
  exists rc. destruct (is_ok rc); eexists; (split; [reflexivity|]).
  - split; [intros g Hg; destruct f, g; try reflexivity; contradiction|].
    repeat split; try (destruct f; reflexivity). eexists; reflexivity.
  - repeat split. eexists; reflexivity.
Qed.

Lemma store_stored (f : field) (s : synth_t) : store f (stored f s) s = s.
Proof. destruct s, f; reflexivity. Qed.

Lemma stored_store (f : field) (s : synth_t) (t : Z) : stored f (store f t s) = t.
Proof. destruct f; reflexivity. Qed.

Lemma store_store (f : field) (s : synth_t) (t u : Z) :
  store f u (store f t s) = store f u s.
Proof. destruct f; reflexivity. Qed.

Lemma sub_add_cancel (v x : Z) : Int.in_range v -> Int.sub (Int.add v x) x = v.
Proof.
  intros Hv. unfold Int.sub, Int.add.
  replace (Int.wrap (v + x) - x) with (Int.wrap (v + x) + - x) by ring.
  rewrite wrap_add_wrap_l. replace (v + x + - x) with v by ring.
  apply wrap_exact, Hv.
Qed.

Lemma add_sub_cancel (v x : Z) : Int.in_range v -> Int.add (Int.sub v x) x = v.
Proof.
  intros Hv. unfold Int.sub, Int.add.
  rewrite wrap_add_wrap_l. replace (v - x + x) with v by ring.
  apply wrap_exact, Hv.
Qed.

(** X2.  Relative adjustments undo one another: when eSpeak accepts both
    calls, an Increment by [x] followed by a Decrement by [x] leaves the
    store as it was, and so does a Decrement followed by an Increment, for
    every [x], also one that makes the intermediate value wrap. *)
Theorem increment_then_decrement_restores
        (espeak_lib : list event -> espeak_call -> espeak_ERROR)
        (f : field) (x : Z) (w : world) :
  (forall t c, espeak_lib t c = EE_OK) ->
  Int.in_range (stored f (synth w)) ->
  (exists w1 w2,
      apply espeak_lib f x ADJ_INC w = Done EE_OK w1 /\
      apply espeak_lib f x ADJ_DEC w1 = Done EE_OK w2 /\
      synth w2 = synth w) /\
  (exists w1 w2,
      apply espeak_lib f x ADJ_DEC w = Done EE_OK w1 /\
      apply espeak_lib f x ADJ_INC w1 = Done EE_OK w2 /\
      synth w2 = synth w).
Proof.
  intros Hok Hv.
  split; eexists; eexists;
    (split; [rewrite apply_run, Hok; reflexivity|]);
    (split; [rewrite apply_run, Hok; reflexivity|]);
    cbn [is_ok synth set_synth log]; rewrite stored_store, store_store;
    cbn [logical_target].
  - rewrite sub_add_cancel by exact Hv. apply store_stored.
  - rewrite add_sub_cancel by exact Hv. apply store_stored.
Qed.

Lemma increment_then_decrement_restores_witness :
  exists w1 w2,
    apply espeak_accepting Volume 2147483647 ADJ_INC (world0 [] 0 0) = Done EE_OK w1 /\
    apply espeak_accepting Volume 2147483647 ADJ_DEC w1 = Done EE_OK w2 /\
    stored Volume (synth w1) = -2147483644 /\
    synth w2 = synth (world0 [] 0 0).
Proof.
  destruct (increment_then_decrement_restores espeak_accepting Volume 2147483647
              (world0 [] 0 0)) as [(w1 & w2 & H1 & H2 & Hs) _].
  - intros t c. reflexivity.
  - vm_compute. split; discriminate.
  - exists w1, w2. split; [exact H1|]. split; [exact H2|]. split; [|exact Hs].
    vm_compute in H1. injection H1 as <-. reflexivity.
Defined.

(** X3.  The calls of start-up do not depend on what eSpeak answers or on
    the store: the default voice when there is one, then range 55, pitch
    55, rate 254, volume 132 and capitals 0, in that order; errors are
    ignored and set-up always returns. *)
Theorem setup_calls_are_fixed
        (espeak_lib : list event -> espeak_call -> espeak_ERROR)
        (defaultVoice : option string) (w : world) :
  exists w',
    espeak_thread_setup espeak_lib defaultVoice w = Done tt w' /\
    espeak_calls (trace w') =
    espeak_calls (trace w)
      ++ match defaultVoice with Some v => [SetVoiceByName v] | None => [] end
      ++ [ SetParameter espeakRANGE 55; SetParameter espeakPITCH 55;
           SetParameter espeakRATE 254; SetParameter espeakVOLUME 132;
           SetParameter espeakCAPITALS 0 ] /\
    queue w' = queue w /\ stopped w' = stopped w /\
    runner_must_stop w' = runner_must_stop w /\ should_run w' = should_run w.
Proof.
  assert (Hcalls : forall u c r, espeak_calls (u ++ [Espeak c r]) = espeak_calls u ++ [c]).
  { induction u as [|ev u IH]; intros c r; [reflexivity|].
    destruct ev; cbn; rewrite ?IH; reflexivity. }
  unfold espeak_thread_setup, set_voice, set_frequency, set_pitch, set_rate, set_volume,
    espeak_SetVoiceByName, espeak_SetParameter, espeak, bind, gets, modify, ret.
  destruct defaultVoice as [v|];
    repeat match goal with |- context [is_ok ?r] => destruct (is_ok r) end;
    eexists; (split; [reflexivity|]);
    cbn [trace log set_synth queue stopped runner_must_stop should_run];
    rewrite !Hcalls, <- !app_assoc; repeat split.
Qed.

(** ** The queue and the worker *)

Lemma synth_calls_app (t u : list event) :
  synth_calls (t ++ u) = synth_calls t ++ synth_calls u.
Proof.
  induction t as [|ev t IH]; [reflexivity|].
  destruct ev as [[p v|name|text size|] rc|c r|b]; cbn; rewrite IH; reflexivity.
Qed.

Lemma frees_app (t u : list event) : frees (t ++ u) = frees t ++ frees u.
Proof.
  induction t as [|ev t IH]; [reflexivity|].
  destruct ev as [c rc|c r|b]; cbn; rewrite IH; reflexivity.
Qed.

Section WorkerProperties.

Variable espeak_lib : list event -> espeak_call -> espeak_ERROR.

(** What one call of [queue_process_entry] does with a head the switch
    handles. *)
Lemma queue_process_entry_effect (e : espeak_entry_t) (q : list espeak_entry_t)
      (w : world) :
  queue w = e :: q ->
  cmd e <> CMD_STOP ->
  exists rc w1 t,
    queue_process_entry espeak_lib w = Done tt w1 /\
    trace w1 = trace w ++ t /\
    queue w1 = (if is_ok rc then q else e :: q) /\
    runner_must_stop w1 = runner_must_stop w /\
    should_run w1 = should_run w /\
    synth_calls t = (if is_speak_text e then [speak_call e] else []) /\
    frees t = [] /\
    ((cmd e = CMD_SET_VOICE /\ rc = EE_OK) \/
     (cmd e <> CMD_SET_VOICE /\ exists c, rc = espeak_lib (trace w) c)).
Proof.
  intros Hq Hcmd.
  destruct (command_of_cases (cmd e)) as [[f Hf]|[Hv|[Hs|Hd]]]; [| | |contradiction].
  - pose proof (queue_process_switch_param espeak_lib f e w Hf) as Hsw.
    rewrite apply_run in Hsw.
    match type of Hsw with _ = Done (Some ?r) _ => set (rc := r) in * end.
    match type of Hsw with context [Espeak ?c0 rc] => set (c := c0) in * end.
    exists rc. eexists. exists [Espeak c rc].
    split.
    { apply (queue_process_entry_run espeak_lib e q w _ rc Hq Hsw).
      destruct (is_ok rc); reflexivity. }
    assert (Hns : is_speak_text e = false)
      by (unfold is_speak_text; rewrite Hf; destruct f; reflexivity).
    rewrite Hns.
    destruct (is_ok rc); cbn [trace queue runner_must_stop should_run set_queue
                                   set_synth log];
      (repeat split; try assumption; try (destruct f; reflexivity));
      right; (split; [rewrite Hf; destruct f; discriminate|]);
      exists c; reflexivity.
  - exists EE_OK, (set_queue q w), [].
    split.
    { apply (queue_process_entry_run espeak_lib e q w w EE_OK Hq); [|reflexivity].
      unfold queue_process_switch. rewrite Hv. reflexivity. }
    unfold is_speak_text. rewrite Hv. cbn. rewrite app_nil_r.
    repeat split. left. split; reflexivity.
  - assert (Hsw : exists rc w1,
               queue_process_switch espeak_lib e w = Done (Some rc) w1 /\
               rc = espeak_lib (trace w) (speak_call e) /\
               w1 = log (Espeak (speak_call e) rc)
                        (set_stopped 0
                           (set_synth (with_text (buf e) (len e) (synth w)) w))).
    { unfold queue_process_switch. rewrite Hs. eexists; eexists.
      split; [reflexivity|]. split; reflexivity. }
    destruct Hsw as (rc & w1 & Hsw & Hrc & Hw1).
    exists rc. eexists. exists [Espeak (speak_call e) rc].
    split.
    { apply (queue_process_entry_run espeak_lib e q w w1 rc Hq Hsw).
      rewrite Hw1. reflexivity. }
    unfold is_speak_text. rewrite Hs. rewrite Hw1.
    destruct (is_ok rc); cbn [trace queue runner_must_stop should_run set_queue
                                   set_synth set_stopped log];
      (repeat split; try assumption);
      right; (split; [discriminate|]);
      exists (speak_call e); exact Hrc.
Qed.

Lemma espeak_thread_process_step (fuel : nat) (e : espeak_entry_t)
      (q : list espeak_entry_t) (w : world) :
  queue w = e :: q ->
  should_run w <> 0 ->
  runner_must_stop w = 0 ->
  espeak_thread_process espeak_lib (S fuel) w =
  match queue_process_entry espeak_lib w with
  | Done _ w1 => espeak_thread_process espeak_lib fuel w1
  | Fault x => Fault x
  end.
Proof.
  intros Hq Hrun Hstop. cbn [espeak_thread_process].
  unfold queue_peek, bind at 1 2 3, gets. rewrite Hq, Hstop. cbn [hd_error is_null].
  unfold is_zero. rewrite (proj2 (Z.eqb_neq _ _) Hrun). reflexivity.
Qed.

Lemma espeak_thread_process_empty (fuel : nat) (w : world) :
  queue w = [] -> espeak_thread_process espeak_lib fuel w = Done tt w.
Proof.
  intros Hq. destruct fuel; cbn [espeak_thread_process];
    unfold queue_peek, bind, gets; rewrite Hq; cbn [hd_error is_null negb];
    rewrite andb_false_r; reflexivity.
Qed.

End WorkerProperties.

(** X4.  Draining is idempotent: a second [queue_clear] right after the
    first frees nothing more and changes nothing at all. *)
Theorem queue_clear_twice (w : world) :
  exists w1,
    queue_clear w = Done tt w1 /\
    queue_clear w1 = Done tt w1.
Proof.
  eexists. split; [apply queue_clear_run|].
  rewrite queue_clear_run. cbn [synth queue stopped runner_must_stop should_run trace
                                      flat_map].
  rewrite app_nil_r. reflexivity.
Qed.

(** X5.  A SpeakText command is not free of effects when synthesis fails.
    With a SpeakText entry at the head, [queue_process_entry] copies the
    buffer and length of the entry into the store, clears [stopped] and
    calls [espeak_Synth] with the buffer and, as a [size_t], the [int]
    length + 1, whatever the call
    returns; only the removal of the head depends on the return code. *)
Theorem speak_text_command_effects
        (espeak_lib : list event -> espeak_call -> espeak_ERROR)
        (e : espeak_entry_t) (q : list espeak_entry_t) (w : world) :
  queue w = e :: q ->
  cmd e = CMD_SPEAK_TEXT ->
  let rc := espeak_lib (trace w) (Synth (buf e) (size_t_of (Int.add (len e) 1))) in
  exists w',
    queue_process_entry espeak_lib w = Done tt w' /\
    s_buf (synth w') = buf e /\
    s_len (synth w') = len e /\
    stopped w' = 0 /\
    trace w' = trace w ++ [Espeak (Synth (buf e) (size_t_of (Int.add (len e) 1))) rc] /\
    queue w' = (if is_ok rc then q else e :: q).
Proof.
  intros Hq Hcmd rc.
  assert (Hsw : queue_process_switch espeak_lib e w =
                Done (Some rc)
                     (log (Espeak (speak_call e) rc)
                          (set_stopped 0
                             (set_synth (with_text (buf e) (len e) (synth w)) w)))).
  { unfold queue_process_switch. rewrite Hcmd. reflexivity. }
  eexists. split.
  - apply (queue_process_entry_run espeak_lib e q w _ rc Hq Hsw). reflexivity.
  - destruct (is_ok rc); repeat split; assumption.
Qed.

Lemma speak_text_command_effects_witness :
  exists w',
    queue_process_entry espeak_rejecting (world0 [say 100; say 200] 1 0) = Done tt w' /\
    s_buf (synth w') = 100 /\
    s_len (synth w') = 5 /\
    stopped w' = 0 /\
    trace w' = [Espeak (Synth 100 6) EE_INTERNAL_ERROR] /\
    queue w' = [say 100; say 200].
Proof.
  apply (speak_text_command_effects espeak_rejecting (say 100) [say 200]
           (world0 [say 100; say 200] 1 0) eq_refl eq_refl).
Defined.

(** X6.  Processing a command frees nothing.  For a head the switch
    handles, [queue_process_entry] returns with no call to [free] added to
    the trace, also when it removes the head: neither the entry nor the
    text buffer of a SpeakText entry is released on this path.  The flags
    [runner_must_stop] and [should_run] are left as they were. *)
Theorem processing_frees_nothing
        (espeak_lib : list event -> espeak_call -> espeak_ERROR)
        (e : espeak_entry_t) (q : list espeak_entry_t) (w : world) :
  queue w = e :: q ->
  cmd e <> CMD_STOP ->
  exists w',
    queue_process_entry espeak_lib w = Done tt w' /\
    frees (trace w') = frees (trace w) /\
    runner_must_stop w' = runner_must_stop w /\
    should_run w' = should_run w.
Proof.
  intros Hq Hcmd.
  destruct (queue_process_entry_effect espeak_lib e q w Hq Hcmd)
    as (rc & w1 & t & Hrun & Htrace & _ & Hstop & Hrunning & _ & Hfrees & _).
  exists w1. split; [exact Hrun|]. split; [|split; assumption].
  rewrite Htrace, frees_app, Hfrees, app_nil_r. reflexivity.
Qed.

Lemma processing_frees_nothing_witness :
  exists w',
    queue_process_entry espeak_accepting (world0 [say 100] 0 0) = Done tt w' /\
    queue w' = [] /\
    frees (trace w') = [].
Proof.
  destruct (processing_frees_nothing espeak_accepting (say 100) []
              (world0 [say 100] 0 0) eq_refl) as (w' & Hrun & Hfrees & _).
  - discriminate.
  - exists w'. split; [exact Hrun|]. split; [|exact Hfrees].
    vm_compute in Hrun. injection Hrun as <-. reflexivity.
Defined.

(** X7.  Commands are executed first in, first out.  With an engine that
    accepts every call, no stop pending and [should_run] set, the inner loop
    of the worker empties a queue of handled commands within one pass per
    command, and eSpeak receives one [espeak_Synth] call for each SpeakText
    entry, in queue order, with the buffer of the entry and, as a
    [size_t], its [int] length + 1. *)
Theorem worker_drains_in_order
        (espeak_lib : list event -> espeak_call -> espeak_ERROR)
        (fuel : nat) (w : world) :
  (forall t c, espeak_lib t c = EE_OK) ->
  should_run w <> 0 ->
  runner_must_stop w = 0 ->
  Forall (fun e => cmd e <> CMD_STOP) (queue w) ->
  (List.length (queue w) <= fuel)%nat ->
  exists w',
    espeak_thread_process espeak_lib fuel w = Done tt w' /\
    queue w' = [] /\
    synth_calls (trace w') =
    synth_calls (trace w) ++ map speak_call (filter is_speak_text (queue w)) /\
    frees (trace w') = frees (trace w).
Proof.
  intros Hok. remember (queue w) as q eqn:Hq. revert fuel w Hq.
  induction q as [|e q IH]; intros fuel w Hq Hrun Hstop Hall Hfuel.
  - exists w. split; [apply espeak_thread_process_empty; congruence|].
    cbn. rewrite app_nil_r. repeat split. congruence.
  - destruct fuel as [|fuel]; [cbn in Hfuel; lia|].
    symmetry in Hq. inversion Hall as [|e' q' He Hq']; subst e' q'.
    rewrite (espeak_thread_process_step espeak_lib fuel e q w Hq Hrun Hstop).
    destruct (queue_process_entry_effect espeak_lib e q w Hq He)
      as (rc & w1 & t & Hproc & Htrace & Hqueue & Hstop1 & Hrun1 & Hsynth & Hfrees & Hrc).
    assert (Hrcok : rc = EE_OK)
      by (destruct Hrc as [[_ ->]|[_ [c ->]]]; [reflexivity|apply Hok]).
    rewrite Hrcok in Hqueue. cbn [is_ok] in Hqueue.
    rewrite Hproc.
    destruct (IH fuel w1) as (w' & Hloop & Hempty & Hcalls & Hfreed);
      try congruence; [cbn in Hfuel; lia|].
    exists w'. split; [exact Hloop|]. split; [exact Hempty|]. split.
    + rewrite Hcalls, Htrace, synth_calls_app, Hsynth, <- app_assoc. f_equal.
      cbn [filter]. destruct (is_speak_text e); reflexivity.
    + rewrite Hfreed, Htrace, frees_app, Hfrees, app_nil_r. reflexivity.
Qed.

Lemma worker_drains_in_order_witness :
  exists w',
    espeak_thread_process espeak_accepting 4
      (world0 [say 100; rate_command ADJ_INC 2; voice_command; say 200] 0 0)
    = Done tt w' /\
    queue w' = [] /\
    synth_calls (trace w') = [Synth 100 6; Synth 200 6] /\
    frees (trace w') = [].
Proof.
  apply (worker_drains_in_order espeak_accepting 4
           (world0 [say 100; rate_command ADJ_INC 2; voice_command; say 200] 0 0)).
  - intros t c. reflexivity.
  - cbn. lia.
  - reflexivity.
  - repeat constructor; discriminate.
  - cbn. lia.
Defined.

(** X8.  A rejected command stalls the worker.  When eSpeak rejects every
    call and the head of the queue is a parameter or SpeakText command, the
    inner loop never ends: it retries the head on every pass, so no amount
    of fuel lets it return. *)
Theorem worker_stalls_on_rejected_command
        (espeak_lib : list event -> espeak_call -> espeak_ERROR)
        (e : espeak_entry_t) (q : list espeak_entry_t) (fuel : nat) (w : world) :
  (forall t c, espeak_lib t c <> EE_OK) ->
  queue w = e :: q ->
  cmd e <> CMD_SET_VOICE ->
  cmd e <> CMD_STOP ->
  should_run w <> 0 ->
  runner_must_stop w = 0 ->
  espeak_thread_process espeak_lib fuel w = Fault OutOfFuel.
Proof.
  intros Hrej Hq Hvoice Hcmd. revert w Hq.
  induction fuel as [|fuel IH]; intros w Hq Hrun Hstop.
  - cbn [espeak_thread_process]. unfold queue_peek, bind, gets.
    rewrite Hq, Hstop. cbn [hd_error is_null]. unfold is_zero.
    rewrite (proj2 (Z.eqb_neq _ _) Hrun). reflexivity.
  - rewrite (espeak_thread_process_step espeak_lib fuel e q w Hq Hrun Hstop).
    destruct (queue_process_entry_effect espeak_lib e q w Hq Hcmd)
      as (rc & w1 & t & Hproc & _ & Hqueue & Hstop1 & Hrun1 & _ & _ & Hrc).
    assert (Hfail : is_ok rc = false).
    { apply is_ok_false_iff. destruct Hrc as [[Hv _]|[_ [c ->]]];
        [contradiction|apply Hrej]. }
    rewrite Hfail in Hqueue. rewrite Hproc.
    apply IH; congruence.
Qed.

Lemma worker_stalls_on_rejected_command_witness :
  espeak_thread_process espeak_rejecting 50 (world0 [rate_command ADJ_INC 2; say 100] 0 0)
  = Fault OutOfFuel.
Proof.
  apply (worker_stalls_on_rejected_command espeak_rejecting (rate_command ADJ_INC 2)
           [say 100] 50 (world0 [rate_command ADJ_INC 2; say 100] 0 0)).
  - intros t c. discriminate.
  - reflexivity.
  - discriminate.
  - discriminate.
  - cbn. lia.
  - reflexivity.
Defined.

(** X9.  Once [should_run] is 0 the worker executes nothing: its inner loop
    returns at once whatever the queue holds, making no call, and with no
    stop pending the whole pass after a wake-up leaves the world as it is,
    the pending commands still queued. *)
Theorem worker_idle_after_shutdown
        (espeak_lib : list event -> espeak_call -> espeak_ERROR)
        (fuel : nat) (w : world) :
  should_run w = 0 ->
  espeak_thread_process espeak_lib fuel w = Done tt w /\
  (runner_must_stop w = 0 -> espeak_thread_wake espeak_lib fuel w = Done tt w).
Proof.
  intros Hrun.
  assert (Hloop : espeak_thread_process espeak_lib fuel w = Done tt w).
  { destruct fuel; cbn [espeak_thread_process]; unfold queue_peek, bind, gets;
      rewrite Hrun; reflexivity. }
  split; [exact Hloop|].
  intros Hstop. unfold espeak_thread_wake, bind. rewrite Hloop.
  unfold espeak_thread_stop, bind, gets. rewrite Hstop. reflexivity.
Qed.

Lemma worker_idle_after_shutdown_witness :
  espeak_thread_wake espeak_accepting 0
    (mk_world synth0 [say 100; say 200] 0 0 0 [])
  = Done tt (mk_world synth0 [say 100; say 200] 0 0 0 []).
Proof.
  apply (worker_idle_after_shutdown espeak_accepting 0
           (mk_world synth0 [say 100; say 200] 0 0 0 []) eq_refl).
  reflexivity.
Defined.

(** ** The delivery callback, for every sink *)

Lemma writes_at_app (t u : list event) : writes_at (t ++ u) = writes_at t ++ writes_at u.
Proof.
  induction t as [|ev t IH]; [reflexivity|].
  destruct ev as [c rc|[| | | |a k] r|b]; cbn; rewrite IH; reflexivity.
Qed.

Lemma writes_of_writes_at (t : list event) :
  writes t = map (fun akr => (snd (fst akr), snd akr)) (writes_at t).
Proof.
  induction t as [|ev t IH]; [reflexivity|].
  destruct ev as [c rc|[| | | |a k] r|b]; cbn; rewrite ?IH; reflexivity.
Qed.

Lemma no_writes_at (t : list event) : writes t = [] -> writes_at t = [].
Proof.
  rewrite writes_of_writes_at. destruct (writes_at t); [reflexivity|discriminate].
Qed.

Section AnySink.

Variable alsa_lib : list event -> alsa_call -> Z.

(** One pass of the loop with samples left: a poll alone, or a poll and one
    write of 1 to 64 frames, no more than are left, taken from [audio]. *)
Lemma write_pass_effect (audio numsamples : Z) (w : world) :
  0 < numsamples ->
  exists audio' numsamples' w1 t,
    write_pass alsa_lib audio numsamples w = Done (audio', numsamples') w1 /\
    trace w1 = trace w ++ t /\
    ((writes_at t = [] /\ audio' = audio /\ numsamples' = numsamples) \/
     (exists k r,
         writes_at t = [(audio, k, r)] /\
         0 < k <= 64 /\ k <= numsamples /\
         audio' = (if Int.wrap r <? 0 then audio else audio + Int.wrap r) /\
         numsamples' =
         (if Int.wrap r <? 0 then numsamples else Int.sub numsamples (Int.wrap r)))).
Proof.
  intros Hn.
  unfold write_pass, snd_pcm_avail_update, snd_pcm_writei, snd_pcm_prepare, alsa, bind, ret.
  cbv zeta.
  set (raw := alsa_lib (trace w) pcm_avail_update).
  set (avail := Int.wrap raw).
  destruct (Z.leb_spec avail 0) as [Hle|Hgt].
  - eexists; eexists; eexists; exists [Alsa pcm_avail_update raw].
    split; [reflexivity|]. split; [reflexivity|]. left. repeat split.
  - set (to_write := minimum (minimum avail (32 * 2)) numsamples).
    assert (Htw : 0 < to_write <= 64 /\ to_write <= numsamples).
    { unfold to_write.
      destruct (minimum_cases avail (32 * 2)) as [[? ->]|[? ->]];
        match goal with |- context [minimum ?x numsamples] =>
          destruct (minimum_cases x numsamples) as [[? ->]|[? ->]] end; lia. }
    match goal with |- context [Int.wrap ?x <? 0] => set (r := x) end.
    destruct (Int.wrap r <? 0) eqn:Hr.
    + eexists; eexists; eexists.
      eexists [Alsa pcm_avail_update raw; Alsa (pcm_writei audio to_write) r;
               Alsa pcm_prepare _].
      split; [reflexivity|].
      split; [unfold log; cbn [trace]; rewrite <- !app_assoc; reflexivity|].
      right. exists to_write, r. rewrite Hr. cbn [writes_at]. repeat split; lia.
    + eexists; eexists; eexists.
      exists [Alsa pcm_avail_update raw; Alsa (pcm_writei audio to_write) r].
      split; [reflexivity|].
      split; [unfold log; cbn [trace]; rewrite <- !app_assoc; reflexivity|].
      right. exists to_write, r. rewrite Hr. cbn [writes_at]. repeat split; lia.
Qed.

Lemma write_loop_writes (fuel : nat) :
  forall (audio numsamples : Z) (w w' : world),
    write_loop alsa_lib fuel audio numsamples w = Done tt w' ->
    exists t,
      trace w' = trace w ++ t /\
      Forall bounded_write (writes_at t) /\
      contiguous audio (writes_at t).
Proof.
  induction fuel as [|fuel IH]; intros audio n w w' Hrun; cbn [write_loop] in Hrun;
    destruct (Z.gtb_spec n 0) as [Hpos|Hzero];
    try discriminate;
    try (injection Hrun as <-; exists []; rewrite app_nil_r; repeat split; constructor).
  unfold bind in Hrun.
  destruct (write_pass_effect audio n w Hpos)
    as (audio' & n' & w1 & t1 & Hpass & Htrace & Hcases).
  rewrite Hpass in Hrun. cbn [fst snd] in Hrun.
  destruct (IH audio' n' w1 w' Hrun) as (t & Htrace' & Hbounded & Hcontig).
  exists (t1 ++ t). split; [rewrite Htrace', Htrace, app_assoc; reflexivity|].
  rewrite writes_at_app.
  destruct Hcases as [(Hnone & -> & _)|(k & r & Hone & Hk & _ & -> & _)].
  - rewrite Hnone. split; assumption.
  - rewrite Hone. cbn [app]. split.
    + constructor; [unfold bounded_write; cbn; exact Hk|exact Hbounded].
    + cbn [contiguous]. split; [reflexivity|exact Hcontig].
Qed.

End AnySink.

(** X10.  Whatever the sink answers, an invocation of the callback that
    returns has offered between 1 and 64 frames in every call to
    [snd_pcm_writei], and has taken the frames in order: the first write
    starts at [audio] and each later one where the frames reported as taken
    (the results as the [int] [samples_written] holds them)
    so far end, a failed write being offered again from the same place. *)
Theorem callback_writes_bounded_and_in_order
        (alsa_lib : list event -> alsa_call -> Z)
        (fuel : nat) (audio numsamples r : Z) (w w' : world) :
  alsa_play_callback alsa_lib fuel audio numsamples w = Done r w' ->
  exists t,
    trace w' = trace w ++ t /\
    Forall bounded_write (writes_at t) /\
    contiguous audio (writes_at t).
Proof.
  intros Hrun. unfold alsa_play_callback in Hrun.
  destruct (Z.eq_dec (stopped w) 0) as [Hclear|Hset].
  - destruct (alsa_play_callback_clear alsa_lib (write_loop alsa_lib fuel)
                                       audio numsamples w Hclear) as (t0 & Hnone & Hcb).
    rewrite Hcb in Hrun.
    destruct (write_loop alsa_lib fuel audio numsamples _) as [[] w1|x] eqn:Hloop;
      [|discriminate].
    injection Hrun as _ <-.
    destruct (write_loop_writes alsa_lib fuel audio numsamples _ w1 Hloop)
      as (t & Htrace & Hbounded & Hcontig).
    cbn [trace] in Htrace.
    exists (t0 ++ t). split; [rewrite Htrace, app_assoc; reflexivity|].
    rewrite writes_at_app, (no_writes_at t0 Hnone). split; assumption.
  - rewrite (alsa_play_callback_stopped alsa_lib _ audio numsamples w Hset) in Hrun.
    injection Hrun as _ <-.
    eexists [Alsa pcm_drop _]. split; [reflexivity|]. cbn. split; [constructor|exact I].
Qed.

Lemma callback_writes_bounded_and_in_order_witness :
  exists w' t,
    alsa_play_callback alsa_short 3 0 25 (world0 [] 0 0) = Done 0 w' /\
    trace w' = trace (world0 [] 0 0) ++ t /\
    writes_at t = [(0, 25, 10); (10, 15, 10); (20, 5, 5)] /\
    Forall bounded_write (writes_at t) /\
    contiguous 0 (writes_at t).
Proof.
  assert (Hrun : exists w', alsa_play_callback alsa_short 3 0 25 (world0 [] 0 0) = Done 0 w')
    by (eexists; vm_compute; reflexivity).
  destruct Hrun as (w' & Hrun).
  destruct (callback_writes_bounded_and_in_order alsa_short 3 0 25 0 (world0 [] 0 0) w' Hrun)
    as (t & Htrace & Hbounded & Hcontig).
  exists w', t. split; [exact Hrun|]. split; [exact Htrace|]. split; [|split; assumption].
  vm_compute in Hrun. injection Hrun as <-. cbn [trace world0 app] in Htrace.
  rewrite <- Htrace. reflexivity.
Defined.

Section StubbornSink.

Variable alsa_lib : list event -> alsa_call -> Z.

Hypothesis never_takes :
  (forall t, Int.wrap (alsa_lib t pcm_avail_update) <= 0) \/
  (forall t audio k, Int.wrap (alsa_lib t (pcm_writei audio k)) < 0).

Lemma write_pass_no_progress (audio numsamples : Z) (w : world) :
  exists w1, write_pass alsa_lib audio numsamples w = Done (audio, numsamples) w1.
Proof.
  unfold write_pass, snd_pcm_avail_update, snd_pcm_writei, snd_pcm_prepare, alsa, bind, ret.
  cbv zeta.
  destruct (Z.leb_spec (Int.wrap (alsa_lib (trace w) pcm_avail_update)) 0) as [Hle|Hgt].
  - eexists; reflexivity.
  - destruct never_takes as [Hfull|Hfails].
    + specialize (Hfull (trace w)). lia.
    + match goal with |- context [Int.wrap (alsa_lib ?t (pcm_writei ?a ?k)) <? 0] =>
        specialize (Hfails t a k);
        destruct (Z.ltb_spec (Int.wrap (alsa_lib t (pcm_writei a k))) 0) as [Hneg|Hpos]
      end.
      * eexists; reflexivity.
      * lia.
Qed.

Lemma write_loop_spins (fuel : nat) :
  forall (audio numsamples : Z) (w : world),
    0 < numsamples ->
    write_loop alsa_lib fuel audio numsamples w = Fault OutOfFuel.
Proof.
  induction fuel as [|fuel IH]; intros audio n w Hn; cbn [write_loop];
    destruct (Z.gtb_spec n 0) as [_|Hzero]; try lia; [reflexivity|].
  unfold bind. destruct (write_pass_no_progress audio n w) as (w1 & ->).
  apply IH. exact Hn.
Qed.

End StubbornSink.

(** X11.  The loop of the callback has no way out but progress.  When the
    sink never reports room, or fails every write (by the [int] values
    that [avail] and [samples_written] receive), an invocation that finds
    [stopped] clear and has samples to deliver never returns: it polls (and
    re-prepares) for ever, so no amount of fuel is enough. *)
Theorem callback_spins_on_a_stubborn_sink
        (alsa_lib : list event -> alsa_call -> Z)
        (fuel : nat) (audio numsamples : Z) (w : world) :
  (forall t, Int.wrap (alsa_lib t pcm_avail_update) <= 0) \/
  (forall t a k, Int.wrap (alsa_lib t (pcm_writei a k)) < 0) ->
  stopped w = 0 ->
  0 < numsamples ->
  alsa_play_callback alsa_lib fuel audio numsamples w = Fault OutOfFuel.
Proof.
  intros Hsink Hclear Hn. unfold alsa_play_callback.
  destruct (alsa_play_callback_clear alsa_lib (write_loop alsa_lib fuel)
                                     audio numsamples w Hclear) as (t0 & _ & ->).
  rewrite (write_loop_spins alsa_lib Hsink fuel audio numsamples _ Hn). reflexivity.
Qed.

Lemma callback_spins_on_a_stubborn_sink_witness :
  alsa_play_callback alsa_full 1000 0 1 (world0 [] 0 0) = Fault OutOfFuel.
Proof.
  apply (callback_spins_on_a_stubborn_sink alsa_full 1000 0 1 (world0 [] 0 0)).
  - left. intros t. cbn. lia.
  - reflexivity.
  - lia.
Defined.

(** X12.  An empty chunk is a no-op on the audio: called with no samples
    and [stopped] clear, the callback queries the state of the sink,
    prepares it when it is not running, and returns 0 without polling for
    room or writing, on its first test of the loop condition. *)
Theorem callback_on_empty_chunk
        (alsa_lib : list event -> alsa_call -> Z)
        (fuel : nat) (audio numsamples : Z) (w : world) :
  stopped w = 0 ->
  numsamples <= 0 ->
  let state := alsa_lib (trace w) pcm_status_get_state in
  exists w' t,
    alsa_play_callback alsa_lib fuel audio numsamples w = Done 0 w' /\
    trace w' = trace w ++ Alsa pcm_status_get_state state :: t /\
    (state = SND_PCM_STATE_RUNNING -> t = []) /\
    (state <> SND_PCM_STATE_RUNNING -> exists r, t = [Alsa pcm_prepare r]) /\
    stopped w' = 0 /\ queue w' = queue w.
Proof.
  intros Hclear Hn state.
  assert (Hloop : forall w0, write_loop alsa_lib fuel audio numsamples w0 = Done tt w0).
  { intros w0. destruct fuel; cbn [write_loop];
      destruct (Z.gtb_spec numsamples 0); try lia; reflexivity. }
  unfold alsa_play_callback, alsa_play_callback_over.
  unfold bind at 1, gets. unfold is_zero. rewrite Hclear. cbn [Z.eqb negb].
  unfold snd_pcm_status_get_state, snd_pcm_prepare, alsa. unfold bind at 1.
  fold state.
  destruct (Z.eqb_spec state SND_PCM_STATE_RUNNING) as [Heq|Hneq].
  - unfold bind, ret. rewrite Hloop. eexists; exists [].
    split; [reflexivity|]. split; [reflexivity|].
    split; [reflexivity|]. split; [contradiction|]. split; [exact Hclear|reflexivity].
  - unfold bind, ret. rewrite Hloop. eexists; eexists [Alsa pcm_prepare _].
    split; [reflexivity|].
    split; [unfold log; cbn [trace]; rewrite <- app_assoc; reflexivity|].
    split; [contradiction|]. split; [eexists; reflexivity|].
    split; [exact Hclear|reflexivity].
Qed.

Lemma callback_on_empty_chunk_witness :
  exists w',
    alsa_play_callback alsa_full 0 0 0 (world0 [] 0 0) = Done 0 w' /\
    trace w' = [Alsa pcm_status_get_state 3].
Proof.
  destruct (callback_on_empty_chunk alsa_full 0 0 0 (world0 [] 0 0) eq_refl)
    as (w' & t & Hrun & Htrace & Hrunning & _); [lia|].
  exists w'. split; [exact Hrun|]. rewrite Htrace, Hrunning; reflexivity.
Defined.

Section PartialSink.

Variable alsa_lib : list event -> alsa_call -> Z.
Hypothesis has_room : forall t, 0 < Int.wrap (alsa_lib t pcm_avail_update).
Hypothesis takes_some :
  forall t audio k, 0 < k -> 0 < alsa_lib t (pcm_writei audio k) <= k.

Lemma write_loop_partial (fuel : nat) :
  forall (audio numsamples : Z) (w : world),
    0 <= numsamples <= Int.max_signed ->
    (Z.to_nat numsamples <= fuel)%nat ->
    exists w' t,
      write_loop alsa_lib fuel audio numsamples w = Done tt w' /\
      trace w' = trace w ++ t /\
      total_written t = numsamples.
Proof.
  induction fuel as [|fuel IH]; intros audio n w Hn Hfuel; cbn [write_loop];
    destruct (Z.gtb_spec n 0) as [Hpos|Hzero];
    try (exists w, []; rewrite app_nil_r; repeat split; unfold total_written; cbn; lia);
    try lia.
  unfold bind at 1, write_pass, snd_pcm_avail_update, snd_pcm_writei, alsa, bind, ret.
  cbv zeta.
  set (raw := alsa_lib (trace w) pcm_avail_update).
  set (avail := Int.wrap raw).
  pose proof (has_room (trace w)) as Havail. fold raw in Havail. fold avail in Havail.
  destruct (Z.leb_spec avail 0) as [Hle|_]; [lia|].
  set (to_write := minimum (minimum avail (32 * 2)) n).
  assert (Htw : 0 < to_write <= n).
  { unfold to_write.
    destruct (minimum_cases avail (32 * 2)) as [[? ->]|[? ->]];
      match goal with |- context [minimum ?x n] =>
        destruct (minimum_cases x n) as [[? ->]|[? ->]] end; lia. }
  match goal with |- context [Int.wrap ?x <? 0] => set (r := x) end.
  assert (Hr : 0 < r <= to_write) by (apply takes_some; lia).
  assert (Hint : Int.wrap r = r).
  { apply wrap_exact. unfold Int.in_range, Int.min_signed, Int.max_signed in *. lia. }
  rewrite Hint.
  destruct (Z.ltb_spec r 0) as [Hneg|_]; [lia|].
  cbn [fst snd].
  assert (Hsub : Int.sub n r = n - r).
  { unfold Int.sub. apply wrap_exact.
    unfold Int.in_range, Int.min_signed, Int.max_signed in *. lia. }
  rewrite Hsub.
  match goal with |- context [write_loop alsa_lib fuel ?a ?m ?w0] =>
    destruct (IH a m w0) as (w' & t & Hrun & Htrace & Htotal); [lia | lia |] end.
  exists w', ([Alsa pcm_avail_update raw; Alsa (pcm_writei audio to_write) r] ++ t).
  split; [exact Hrun|]. split.
  - rewrite Htrace. unfold log. cbn [trace]. rewrite <- !app_assoc. reflexivity.
  - rewrite total_written_app, Htotal. unfold total_written. cbn. lia.
Qed.

End PartialSink.

(** X13.  Short writes are made up for.  When the sink always has room
    (the [int] that [avail] receives is positive) and
    takes at least one of the frames it is offered, possibly fewer than
    offered, the callback returns 0 having had exactly [numsamples] frames
    taken, within one pass of the loop per sample. *)
Theorem callback_completes_over_short_writes
        (alsa_lib : list event -> alsa_call -> Z)
        (fuel : nat) (audio numsamples : Z) (w : world) :
  (forall t, 0 < Int.wrap (alsa_lib t pcm_avail_update)) ->
  (forall t a k, 0 < k -> 0 < alsa_lib t (pcm_writei a k) <= k) ->
  stopped w = 0 ->
  0 <= numsamples <= Int.max_signed ->
  (Z.to_nat numsamples <= fuel)%nat ->
  exists w' t,
    alsa_play_callback alsa_lib fuel audio numsamples w = Done 0 w' /\
    trace w' = trace w ++ t /\
    total_written t = numsamples.
Proof.
  intros Hroom Htakes Hclear Hn Hfuel. unfold alsa_play_callback.
  destruct (alsa_play_callback_clear alsa_lib (write_loop alsa_lib fuel)
                                     audio numsamples w Hclear) as (t0 & Hnone & ->).
  destruct (write_loop_partial alsa_lib Hroom Htakes fuel audio numsamples
              (mk_world (synth w) (queue w) (stopped w) (runner_must_stop w)
                        (should_run w) (trace w ++ t0)) Hn Hfuel)
    as (w' & t & -> & Htrace & Htotal).
  exists w', (t0 ++ t). split; [reflexivity|].
  split; [cbn [trace] in Htrace; rewrite Htrace, app_assoc; reflexivity|].
  rewrite total_written_app, Htotal. unfold total_written. rewrite Hnone. reflexivity.
Qed.

Lemma callback_completes_over_short_writes_witness :
  exists w' t,
    alsa_play_callback alsa_short 25 0 25 (world0 [] 0 0) = Done 0 w' /\
    trace w' = trace (world0 [] 0 0) ++ t /\
    total_written t = 25.
Proof.
  apply (callback_completes_over_short_writes alsa_short 25 0 25 (world0 [] 0 0)).
  - intros t. cbn. lia.
  - intros t a k Hk. cbn. destruct (minimum_cases k 10) as [[? ->]|[? ->]]; lia.
  - reflexivity.
  - unfold Int.max_signed. lia.
  - lia.
Defined.

(** ** Start-up *)

Section StartupProperties.

Variable setup_lib : list setup_event -> setup_call -> Z.

Lemma checked_cases (c : setup_call) (msg : string)
      (next : list setup_event -> Z * list setup_event) (log : list setup_event) :
  let rc := setup_lib log c in
  (rc < 0 /\
   checked setup_lib c msg next log = (rc, log ++ [Setup c rc; SoundError msg rc])) \/
  (0 <= rc /\ checked setup_lib c msg next log = next (log ++ [Setup c rc])).
Proof.
  cbv zeta. unfold checked, sound_error.
  destruct (Z.ltb_spec (setup_lib log c) 0); [left|right]; split; auto.
  rewrite <- app_assoc. reflexivity.
Qed.

(** How [init_audio] ends, by what it leaves in the log. *)
Lemma init_audio_outcome (rate : Z) (log0 : list setup_event) :
  exists rc t,
    init_audio setup_lib rate log0 = (rc, log0 ++ t) /\
    (exists r t', t = Setup (pcm_open "default") r :: t') /\
    map fst (setup_calls t) =
    firstn (List.length (setup_calls t)) (init_audio_calls rate) /\
    Forall succeeded (removelast (setup_calls t)) /\
    (rc = 0 /\ Forall succeeded (setup_calls t) /\
     List.length (setup_calls t) = 9%nat /\
     stderr_lines t = [] /\ callback_registered t = true
     \/
     rc < 0 /\ last (map snd (setup_calls t)) 0 = rc /\
     (exists msg, stderr_lines t = [msg]) /\ callback_registered t = false).
Proof.
  unfold init_audio.
  repeat match goal with
         | |- context [checked setup_lib ?c ?m ?n ?l] =>
             let Hsign := fresh "Hsign" in
             let Heq := fresh "Heq" in
             destruct (checked_cases c m n l) as [[Hsign Heq]|[Hsign Heq]];
             rewrite Heq; clear Heq;
             let r := fresh "r" in
             let Er := fresh "Er" in
             remember (setup_lib l c) as r eqn:Er; clear Er
         end;
    rewrite <- ?app_assoc; cbn [app];
    eexists; eexists; (split; [reflexivity|]);
    (split; [eexists; eexists; reflexivity|]);
    cbn [setup_calls map fst snd List.length firstn init_audio_calls removelast
                     last stderr_lines callback_registered];
    (split; [reflexivity|]);
    (split; [unfold succeeded; repeat constructor; cbn; assumption|]);
    first [ right; split; [assumption|]; split; [reflexivity|];
            split; [eexists; reflexivity|reflexivity]
          | left; split; [reflexivity|];
            split; [unfold succeeded; repeat constructor; cbn; assumption|];
            repeat split ].
Qed.

End StartupProperties.

(** X14.  [init_audio] stops at the first ALSA call that fails.  The calls
    it makes are an initial part of the nine of the source, in order, and
    all but the last one made returned 0 or more.  It returns 0 exactly
    when all nine succeeded; it has then written nothing to stderr and has
    registered the callback.  Otherwise it returns the negative code of the
    last call it made, writes one line to stderr, and does not register the
    callback. *)
Theorem init_audio_stops_at_first_failure
        (setup_lib : list setup_event -> setup_call -> Z)
        (rate : Z) (log0 : list setup_event) :
  let rc := fst (init_audio setup_lib rate log0) in
  exists t,
    snd (init_audio setup_lib rate log0) = log0 ++ t /\
    map fst (setup_calls t) =
    firstn (List.length (setup_calls t)) (init_audio_calls rate) /\
    Forall succeeded (removelast (setup_calls t)) /\
    (rc = 0 /\ Forall succeeded (setup_calls t) /\
     List.length (setup_calls t) = 9%nat /\
     stderr_lines t = [] /\ callback_registered t = true
     \/
     rc < 0 /\ last (map snd (setup_calls t)) 0 = rc /\
     (exists msg, stderr_lines t = [msg]) /\ callback_registered t = false).
Proof.
  destruct (init_audio_outcome setup_lib rate log0)
    as (rc & t & Hrun & _ & Hprefix & Hbutlast & Hcases).
  rewrite Hrun. cbn [fst snd]. exists t. repeat split; assumption.
Qed.

Lemma setup_calls_app (t u : list setup_event) :
  setup_calls (t ++ u) = setup_calls t ++ setup_calls u.
Proof.
  induction t as [|ev t IH]; [reflexivity|].
  destruct ev; cbn; rewrite IH; reflexivity.
Qed.

Lemma espeak_thread_setup_frame
      (espeak_lib : list event -> espeak_call -> espeak_ERROR)
      (defaultVoice : option string) (w : world) :
  exists w1,
    espeak_thread_setup espeak_lib defaultVoice w = Done tt w1 /\
    queue w1 = queue w /\
    runner_must_stop w1 = runner_must_stop w /\
    should_run w1 = should_run w.
Proof.
  unfold espeak_thread_setup, set_voice, set_frequency, set_pitch, set_rate, set_volume,
    espeak_SetVoiceByName, espeak_SetParameter, espeak, bind, gets, modify, ret.
  destruct defaultVoice as [v|];
    repeat match goal with |- context [is_ok ?r] => destruct (is_ok r) end;
    eexists; repeat split.
Qed.

(** X15.  A failed start disables the worker but is not a way out of
    start-up.  When [espeak_Initialize] returns a negative rate, or
    [init_audio] fails, the head of [espeak_thread] sets [should_run] to 0
    and touches nothing else; the PCM device is opened in either case, also
    after eSpeak failed to initialise.  Set-up of the voice parameters then
    still runs, and after it a wake-up executes no queued command: with no
    stop pending the queue is left as it was. *)
Theorem failed_start_disables_worker
        (setup_lib : list setup_event -> setup_call -> Z)
        (espeak_Initialize : Z -> Z)
        (espeak_lib : list event -> espeak_call -> espeak_ERROR)
        (defaultVoice : option string) (fuel : nat) (w : world) :
  let rate := espeak_Initialize AUDIO_OUTPUT_RETRIEVAL in
  rate < 0 \/ fst (init_audio setup_lib (rate mod Int.modulus) []) < 0 ->
  runner_must_stop w = 0 ->
  let started := espeak_thread_init setup_lib espeak_Initialize w in
  fst started = set_should_run 0 w /\
  In (pcm_open "default") (map fst (setup_calls (snd started))) /\
  exists w1,
    espeak_thread_setup espeak_lib defaultVoice (fst started) = Done tt w1 /\
    espeak_thread_wake espeak_lib fuel w1 = Done tt w1 /\
    queue w1 = queue w.
Proof.
  intros rate Hfail Hstop started.
  assert (Hstarted : fst started = set_should_run 0 w).
  { unfold started, espeak_thread_init. fold rate. cbn [fst].
    destruct (Z.ltb_spec rate 0) as [Hneg|Hpos]; cbn [fst snd].
    - destruct (_ <? 0); reflexivity.
    - destruct Hfail as [Hneg|Haudio]; [lia|].
      rewrite (proj2 (Z.ltb_lt _ _) Haudio). reflexivity. }
  split; [exact Hstarted|]. split.
  - unfold started, espeak_thread_init. cbn [snd].
    match goal with |- context [init_audio setup_lib ?r ?l] =>
      destruct (init_audio_outcome setup_lib r l) as (rc & t & -> & (r0 & t' & ->) & _)
    end.
    cbn [snd]. rewrite setup_calls_app, map_app. apply in_or_app. right.
    cbn. left. reflexivity.
  - rewrite Hstarted.
    destruct (espeak_thread_setup_frame espeak_lib defaultVoice (set_should_run 0 w))
      as (w1 & Hsetup & Hqueue & Hstop1 & Hrun1).
    cbn [set_should_run queue runner_must_stop should_run] in Hqueue, Hstop1, Hrun1.
    exists w1. split; [exact Hsetup|]. split; [|exact Hqueue].
    assert (Hloop : espeak_thread_process espeak_lib fuel w1 = Done tt w1).
    { destruct fuel; cbn [espeak_thread_process]; unfold queue_peek, bind, gets;
        rewrite Hrun1; reflexivity. }
    unfold espeak_thread_wake, bind. rewrite Hloop.
    unfold espeak_thread_stop, bind, gets. rewrite Hstop1, Hstop. reflexivity.
Qed.

Lemma failed_start_disables_worker_witness :
  exists w1,
    espeak_thread_setup espeak_accepting None
      (fst (espeak_thread_init setup_no_device (fun _ => 22050)
              (world0 [say 100; say 200] 0 0)))
    = Done tt w1 /\
    espeak_thread_wake espeak_accepting 0 w1 = Done tt w1 /\
    queue w1 = [say 100; say 200].
Proof.
  destruct (failed_start_disables_worker setup_no_device (fun _ => 22050) espeak_accepting
              None 0 (world0 [say 100; say 200] 0 0))
    as (_ & _ & w1 & Hsetup & Hwake & Hqueue).
  - right. vm_compute. reflexivity.
  - reflexivity.
  - exists w1. split; [exact Hsetup|]. split; [exact Hwake|exact Hqueue].
Defined.

(** X16.  A stop executes none of the queued commands.  When the worker
    wakes with [runner_must_stop] set, all it does is free the entries of
    the queue, text buffers included, and then call [espeak_Cancel]: no
    queued text reaches [espeak_Synth], no parameter command reaches
    eSpeak, and the store is left as it was. *)
Theorem stop_discards_without_executing
        (espeak_lib : list event -> espeak_call -> espeak_ERROR)
        (fuel : nat) (w : world) :
  runner_must_stop w <> 0 ->
  exists rc w',
    espeak_thread_wake espeak_lib fuel w = Done tt w' /\
    trace w' = trace w ++ flat_map releases (queue w) ++ [Espeak Cancel rc] /\
    espeak_calls (trace w') = espeak_calls (trace w) ++ [Cancel] /\
    synth w' = synth w.
Proof.
  intros Hstop.
  assert (Hcalls : forall q, espeak_calls (flat_map releases q) = []).
  { induction q as [|e q IH]; [reflexivity|].
    cbn [flat_map]. unfold releases at 1. destruct (cmd e); cbn; exact IH. }
  assert (Happ : forall t u, espeak_calls (t ++ u) = espeak_calls t ++ espeak_calls u).
  { induction t as [|ev t IH]; intros u; [reflexivity|].
    destruct ev; cbn; rewrite ?IH; reflexivity. }
  eexists; eexists. split.
  - unfold espeak_thread_wake, bind.
    rewrite espeak_thread_process_stop_pending by exact Hstop.
    apply espeak_thread_stop_run. exact Hstop.
  - cbn [trace synth]. split; [rewrite <- app_assoc; reflexivity|].
    split; [|reflexivity].
    rewrite !Happ, Hcalls, app_nil_r. reflexivity.
Qed.

Lemma stop_discards_without_executing_witness :
  exists rc w',
    espeak_thread_wake espeak_accepting 4
      (world0 [say 100; rate_command ADJ_INC 2; say 200] 0 1) = Done tt w' /\
    trace w' =
    [ Free (TextBuffer 100); Free (Entry (say 100));
      Free (Entry (rate_command ADJ_INC 2));
      Free (TextBuffer 200); Free (Entry (say 200));
      Espeak Cancel rc ] /\
    synth w' = synth0.
Proof.
  destruct (stop_discards_without_executing espeak_accepting 4
              (world0 [say 100; rate_command ADJ_INC 2; say 200] 0 1))
    as (rc & w' & Hwake & Htrace & _ & Hsynth).
  - cbn. lia.
  - exists rc, w'. split; [exact Hwake|]. split; [exact Htrace|exact Hsynth].
Defined.
